(** * GroopM [stream_ext.merge]: the hot loop of the two-way merge

    A shallow embedding of [src/groopm/stream_ext.pyx].  The routine takes
    eleven positional arguments: two run lengths, four input buffers, an
    output length, two output buffers and two starting cursors.  It returns
    nothing; its whole effect is the mutation of the two output buffers.

    Python buffers are mutable objects passed by reference, so the embedding
    keeps them in a heap indexed by object identity, and the routine is a
    computation in a small state-and-exception monad.  Every subscript
    expression is recorded in a log, which lets the safety statements speak
    about the reads the loop really performs. *)

From stdpp Require Import base numbers list list_numbers sorting gmap.

Open Scope Z_scope.

Module stream_ext.

(** ** Heap, log and the monad *)

(** One entry per evaluated subscript: [Load b p] for [b[p]] on the right
    of an assignment or in a test, [Store b p] for [b[p] = ...]. *)
Inductive event : Type :=
  | Load (b : positive) (p : Z)
  | Store (b : positive) (p : Z).

Record machine : Type := Machine {
  mem : gmap positive (list Z);
  log : list event
}.

(** What a subscript can raise: [IndexError] when the position is outside
    the buffer, [TypeError] when the argument is not a buffer at all. *)
Inductive exn : Type := IndexError | TypeError.

Inductive outcome (A : Type) : Type :=
  | Ok (a : A)
  | Raise (e : exn).
Arguments Ok {A} a.
Arguments Raise {A} e.

Definition M (A : Type) : Type := machine → outcome A * machine.

Definition ret {A} (a : A) : M A := λ m, (Ok a, m).

Definition bind {A B} (c : M A) (f : A → M B) : M B :=
  λ m, match c m with
       | (Ok a, m') => f a m'
       | (Raise e, m') => (Raise e, m')
       end.

Notation "'let*' v := c 'in' k" := (bind c (λ v, k))
  (at level 10, v name, c at level 100, k at level 200, only parsing).

(** ** Subscripting *)

(** Python's position normalisation: a negative position counts from the
    end; whatever is still outside [0, len) is an error. *)
Definition py_index (len p : Z) : option nat :=
  let q := if bool_decide (p < 0) then p + len else p in
  if bool_decide (0 ≤ q < len) then Some (Z.to_nat q) else None.

Definition record (e : event) (m : machine) : machine :=
  {| mem := mem m; log := log m ++ [e] |}.

(** [b[p]] as an expression. *)
Definition getitem (b : positive) (p : Z) : M Z := λ m,
  let m := record (Load b p) m in
  match mem m !! b with
  | None => (Raise TypeError, m)
  | Some l =>
      match py_index (Z.of_nat (length l)) p with
      | None => (Raise IndexError, m)
      | Some n =>
          match l !! n with
          | Some v => (Ok v, m)
          | None => (Raise IndexError, m)
          end
      end
  end.

(** [b[p] = v]. *)
Definition setitem (b : positive) (p : Z) (v : Z) : M unit := λ m,
  let m := record (Store b p) m in
  match mem m !! b with
  | None => (Raise TypeError, m)
  | Some l =>
      match py_index (Z.of_nat (length l)) p with
      | None => (Raise IndexError, m)
      | Some n => (Ok (), {| mem := <[b := <[n := v]> l]> (mem m); log := log m |})
      end
  end.

(** [for k in ks: s = f k s], stopping at the first exception. *)
Fixpoint for_each {St : Type} (ks : list Z) (f : Z → St → M St) (s : St)
    : M St :=
  match ks with
  | [] => ret s
  | k :: ks' => let* s' := f k s in for_each ks' f s'
  end.

(** ** The routine *)

(** The test of line 20, [j < y_len and (i == x_len or y[j] < x[i])],
    with Python's left-to-right short-circuit evaluation. *)
Definition guard (x_len : Z) (x : positive) (y_len : Z) (y : positive)
    (i j : Z) : M bool :=
  if bool_decide (j < y_len) then
    if bool_decide (i = x_len) then ret true
    else
      let* yj := getitem y j in
      let* xi := getitem x i in
      ret (bool_decide (yj < xi))
  else ret false.

(** One pass through the loop body (lines 20-28) at output position [k];
    the pair is the two cursors [(i, j)]. *)
Definition body (x_len : Z) (x x_inds : positive) (y_len : Z)
    (y y_inds : positive) (out out_inds : positive)
    (k : Z) (c : Z * Z) : M (Z * Z) :=
  let '(i, j) := c in
  let* t := guard x_len x y_len y i j in
  if (t : bool) then
    let* v := getitem y j in
    let* _ := setitem out k v in
    let* w := getitem y_inds j in
    let* _ := setitem out_inds k w in
    ret (i, j + 1)
  else
    let* v := getitem x i in
    let* _ := setitem out k v in
    let* w := getitem x_inds i in
    let* _ := setitem out_inds k w in
    ret (i + 1, j).

(** The loop of line 19, [for k in range(out_len)], returning the cursors
    it ends with (they are locals of the routine). *)
Definition merge_loop (x_len : Z) (x x_inds : positive) (y_len : Z)
    (y y_inds : positive) (out_len : Z) (out out_inds : positive)
    (i j : Z) : M (Z * Z) :=
  for_each (seqZ 0 out_len)
    (body x_len x x_inds y_len y y_inds out out_inds) (i, j).

(** [merge] itself: the cursors are dropped, nothing is returned. *)
Definition merge (x_len : Z) (x x_inds : positive) (y_len : Z)
    (y y_inds : positive) (out_len : Z) (out out_inds : positive)
    (i j : Z) : M unit :=
  let* _ := merge_loop x_len x x_inds y_len y y_inds out_len out out_inds i j in
  ret ().

(** ** Observations used in the statements *)

(** The contents of buffer [b]; an unbound reference has none. *)
Definition buf (m : machine) (b : positive) : list Z :=
  default [] (mem m !! b).

(** Python's slice [l[a:b]] for [0 ≤ a]. *)
Definition slice (l : list Z) (a b : Z) : list Z :=
  take (Z.to_nat (b - a)) (drop (Z.to_nat a) l).

(** The element of [l] at position [p], for [0 ≤ p]. *)
Definition item (l : list Z) (p : Z) : option Z :=
  if bool_decide (0 ≤ p) then l !! Z.to_nat p else None.

(** The cursors after the first [k] iterations of the call, when none of
    them raised. *)
Definition cursors_after (x_len : Z) (x x_inds : positive) (y_len : Z)
    (y y_inds : positive) (out out_inds : positive) (i j : Z)
    (m : machine) (k : Z) : option (Z * Z) :=
  match merge_loop x_len x x_inds y_len y y_inds k out out_inds i j m with
  | (Ok c, _) => Some c
  | (Raise _, _) => None
  end.

(** The positions stored to in buffer [b], in the order of the log. *)
Definition stores_to (b : positive) (evs : list event) : list Z :=
  omap (λ e, match e with
             | Store b' p => if decide (b' = b) then Some p else None
             | Load _ _ => None
             end) evs.

(** The heap of the spec's scenario: six separate buffers, the two output
    buffers pre-filled with a sentinel. *)
Definition scenario : machine :=
  {| mem := <[1%positive := [1; 3; 5]]> (<[2%positive := [10; 11; 12]]>
            (<[3%positive := [2; 3; 6]]> (<[4%positive := [20; 21; 22]]>
            (<[5%positive := [-1; -1; -1; -1; -1; -1]]>
            (<[6%positive := [-1; -1; -1; -1; -1; -1]]> ∅)))));
     log := [] |}.

(** Variants of the scenario: [out] with two cells only, [out_inds] with
    two cells only, and a second pair of output buffers with other
    contents. *)
Definition with_buffer (b : positive) (l : list Z) (m : machine) : machine :=
  {| mem := <[b := l]> (mem m); log := log m |}.

Definition short_out : machine := with_buffer 5 [-1; -1] scenario.

Definition short_out_inds : machine := with_buffer 6 [-1; -1] scenario.

Definition second_outputs : machine :=
  with_buffer 7 [0; 0; 0; 0; 0; 0] (with_buffer 8 [9; 9; 9; 9; 9; 9] scenario).

(** ** The caller's contract (spec, section 4.1) *)

Record contract (x_len : Z) (x x_inds : positive) (y_len : Z)
    (y y_inds : positive) (out_len : Z) (out out_inds : positive)
    (i j : Z) (m : machine) : Prop := {
  (* starting cursors are in range *)
  pre_i : 0 ≤ i ≤ x_len;
  pre_j : 0 ≤ j ≤ y_len;
  (* the input buffers hold at least the declared run lengths *)
  pre_x : x_len ≤ Z.of_nat (length (buf m x));
  pre_x_inds : x_len ≤ Z.of_nat (length (buf m x_inds));
  pre_y : y_len ≤ Z.of_nat (length (buf m y));
  pre_y_inds : y_len ≤ Z.of_nat (length (buf m y_inds));
  (* enough input remains, and the output buffers are large enough *)
  pre_out_len : 0 ≤ out_len ≤ (x_len - i) + (y_len - j);
  pre_out : out_len ≤ Z.of_nat (length (buf m out));
  pre_out_inds : out_len ≤ Z.of_nat (length (buf m out_inds));
  (* the output buffers are objects of their own *)
  pre_sep : out ≠ out_inds;
  pre_sep_out : out ∉ [x; x_inds; y; y_inds];
  pre_sep_out_inds : out_inds ∉ [x; x_inds; y; y_inds]
}.

(** The log entries of one iteration at output position [k] with cursors
    [(i, j)]: the loads of the test, then the four subscripts of the branch
    taken ([t] is the value of the test). *)
Definition guard_events (x_len : Z) (x : positive) (y_len : Z) (y : positive)
    (i j : Z) : list event :=
  if bool_decide (j < y_len) then
    if bool_decide (i = x_len) then [] else [Load y j; Load x i]
  else [].

Definition branch_events (x x_inds y y_inds out out_inds : positive)
    (k i j : Z) (t : bool) : list event :=
  if t then [Load y j; Store out k; Load y_inds j; Store out_inds k]
  else [Load x i; Store out k; Load x_inds i; Store out_inds k].

(** A log entry is in bounds when it is a load from one of the four input
    buffers at a position inside the run, or a store. *)
Definition load_in_bounds (x_len : Z) (x x_inds : positive) (y_len : Z)
    (y y_inds : positive) (e : event) : Prop :=
  match e with
  | Load b p =>
      (b = x ∧ 0 ≤ p < x_len) ∨ (b = x_inds ∧ 0 ≤ p < x_len) ∨
      (b = y ∧ 0 ≤ p < y_len) ∨ (b = y_inds ∧ 0 ≤ p < y_len)
  | Store _ _ => True
  end.

(** ** Relations between the state before and the state after *)

(** [respects R c Q]: running [c] takes every state to an [R]-related one,
    and a value it returns satisfies [Q].  With [R] a preorder this
    composes along [bind] and [for_each]; it needs nothing about the
    buffers, so it also covers runs that raise. *)
Definition respects (R : relation machine) {A : Type} (c : M A)
    (Q : A → Prop) : Prop :=
  ∀ m, R m (c m).2 ∧ ∀ a, (c m).1 = Ok a → Q a.

(** The log only grows, by entries that satisfy [P]. *)
Definition log_grows (P : event → Prop) (m m' : machine) : Prop :=
  ∃ evs, log m' = log m ++ evs ∧ Forall P evs.

(** A log entry respects the frame when it is a load, or a store into one
    of the two output buffers at a position in [0, out_len). *)
Definition store_in_frame (out_len : Z) (out out_inds : positive)
    (e : event) : Prop :=
  match e with
  | Load _ _ => True
  | Store b p => (b = out ∨ b = out_inds) ∧ 0 ≤ p < out_len
  end.

(** [m'] differs from [m] at most in cells [0 .. out_len-1] of the two
    output buffers. *)
Definition writes_only (out_len : Z) (out out_inds : positive)
    (m m' : machine) : Prop :=
  (∀ b, b ≠ out → b ≠ out_inds → mem m' !! b = mem m !! b) ∧
  (∀ b, length (buf m' b) = length (buf m b)) ∧
  (∀ b p, out_len ≤ p → item (buf m' b) p = item (buf m b) p) ∧
  log_grows (store_in_frame out_len out out_inds) m m'.

(** A log entry keeps to the roles of the arguments when it is a load from
    one of the four input buffers or a store into one of the two output
    buffers. *)
Definition keeps_roles (x x_inds y y_inds out out_inds : positive)
    (e : event) : Prop :=
  match e with
  | Load b _ => b ∈ [x; x_inds; y; y_inds]
  | Store b _ => b ∈ [out; out_inds]
  end.

(** The cursors before iteration [k] of a call that started at [(i, j)]. *)
Definition cursors_ok (x_len y_len i j : Z) (k : Z) (c : Z * Z) : Prop :=
  i ≤ c.1 ≤ x_len ∧ j ≤ c.2 ≤ y_len ∧ c.1 + c.2 = i + j + k.

(** [interleaved l1 l2 l]: [l] is made of the elements of [l1] and of
    [l2], each list in its own order. *)
Inductive interleaved {A : Type} : list A → list A → list A → Prop :=
  | interleaved_nil : interleaved [] [] []
  | interleaved_left (a : A) (l1 l2 l : list A) :
      interleaved l1 l2 l → interleaved (a :: l1) l2 (a :: l)
  | interleaved_right (a : A) (l1 l2 l : list A) :
      interleaved l1 l2 l → interleaved l1 (a :: l2) (a :: l).

(** ** The run of one call, iteration by iteration

    A closed description of what the loop does on the caller's inputs:
    the cursors before iteration [n], the pair stored by each iteration
    and the log entries it adds.  [loop_sim] below shows that the code
    follows it. *)

Section description.
Variables (x_len : Z) (x x_inds : positive) (y_len : Z)
          (y y_inds : positive) (out out_inds : positive)
          (i j : Z) (m : machine).

Local Abbreviation xs := (buf m x).
Local Abbreviation xis := (buf m x_inds).
Local Abbreviation ys := (buf m y).
Local Abbreviation yis := (buf m y_inds).

(** Buffers other than the two outputs are as the caller left them. *)
Definition framed (m' : machine) : Prop :=
  ∀ b, b ≠ out → b ≠ out_inds → mem m' !! b = mem m !! b.

(** The state after one iteration: the two stores, in program order. *)
Definition after_step (m' : machine) (k v w : Z) (evs : list event)
    : machine :=
  {| mem := <[out_inds := <[Z.to_nat k := w]> (buf m' out_inds)]>
              (<[out := <[Z.to_nat k := v]> (buf m' out)]> (mem m'));
     log := log m' ++ evs |}.

(** What the test of line 20 evaluates to on the caller's inputs. *)
Definition takes_y (i' j' : Z) : bool :=
  bool_decide (j' < y_len) &&
  (bool_decide (i' = x_len) ||
   bool_decide (default 0 (item ys j') < default 0 (item xs i'))).

(** The cursors after an iteration that starts with cursors [c]. *)
Definition next (c : Z * Z) : Z * Z :=
  if takes_y c.1 c.2 then (c.1, c.2 + 1) else (c.1 + 1, c.2).

(** The cursors before iteration [n]. *)
Fixpoint cur (n : nat) : Z * Z :=
  match n with
  | O => (i, j)
  | S n' => next (cur n')
  end.

(** The value and the index stored by an iteration that starts with
    cursors [c]. *)
Definition emit (c : Z * Z) : Z * Z :=
  if takes_y c.1 c.2
  then (default 0 (item ys c.2), default 0 (item yis c.2))
  else (default 0 (item xs c.1), default 0 (item xis c.1)).

(** The pairs stored by the first [n] iterations, in order. *)
Definition emitted (n : nat) : list (Z * Z) :=
  (λ k, emit (cur k)) <$> seq 0 n.

(** The log entries of iteration [k], and of the first [n] iterations. *)
Definition step_events (k : nat) : list event :=
  guard_events x_len x y_len y (cur k).1 (cur k).2 ++
  branch_events x x_inds y y_inds out out_inds (Z.of_nat k)
    (cur k).1 (cur k).2 (takes_y (cur k).1 (cur k).2).

Definition events (n : nat) : list event :=
  concat (step_events <$> seq 0 n).

(** The state after [n] iterations. *)
Record reached (n : nat) (m' : machine) : Prop := {
  r_frame : framed m';
  r_out : buf m' out = (emitted n).*1 ++ drop n (buf m out);
  r_out_inds : buf m' out_inds = (emitted n).*2 ++ drop n (buf m out_inds);
  r_log : log m' = log m ++ events n
}.

End description.

(** * Proofs *)

(** ** Subscripts that succeed *)

Lemma py_index_nonneg (len p : Z) :
  0 ≤ p < len → py_index len p = Some (Z.to_nat p).
Proof.
  intros Hp. unfold py_index.
  rewrite (bool_decide_eq_false_2 (p < 0)) by lia.
  by rewrite (bool_decide_eq_true_2 (0 ≤ p < len)) by lia.
Qed.

Lemma getitem_ok (b : positive) (p : Z) (l : list Z) (v : Z) (m : machine) :
  mem m !! b = Some l → 0 ≤ p → l !! Z.to_nat p = Some v →
  getitem b p m = (Ok v, record (Load b p) m).
Proof.
  intros Hb Hp Hv. unfold getitem. cbn. rewrite Hb.
  pose proof (lookup_lt_Some _ _ _ Hv) as Hlen.
  rewrite py_index_nonneg by lia. by rewrite Hv.
Qed.

Lemma setitem_ok (b : positive) (p v : Z) (l : list Z) (m : machine) :
  mem m !! b = Some l → 0 ≤ p < Z.of_nat (length l) →
  setitem b p v m =
    (Ok (), {| mem := <[b := <[Z.to_nat p := v]> l]> (mem m);
               log := log m ++ [Store b p] |}).
Proof.
  intros Hb Hp. unfold setitem. cbn. rewrite Hb.
  by rewrite py_index_nonneg by lia.
Qed.

Lemma buf_bound (m : machine) (b : positive) :
  (0 < length (buf m b))%nat → mem m !! b = Some (buf m b).
Proof.
  unfold buf. destruct (mem m !! b); cbn; [done | lia].
Qed.

Lemma for_each_app {St : Type} (ks1 ks2 : list Z) (f : Z → St → M St)
    (s : St) (m : machine) :
  for_each (ks1 ++ ks2) f s m = bind (for_each ks1 f s) (for_each ks2 f) m.
Proof.
  revert s m. induction ks1 as [|k ks1 IH]; intros s m; cbn [for_each app].
  - done.
  - unfold bind in *. destruct (f k s m) as [[s'|e] m']; [apply IH | done].
Qed.

Lemma bind_ret_r {A : Type} (c : M A) (m : machine) : bind c ret m = c m.
Proof. unfold bind, ret. by destruct (c m) as [[a|e] m']. Qed.

(** Overwriting the first cell after a prefix of length [n]. *)
Lemma insert_after_prefix {A : Type} (pre l : list A) (n : nat) (v : A) :
  length pre = n → (n < length l)%nat →
  <[n := v]> (pre ++ drop n l) = (pre ++ [v]) ++ drop (S n) l.
Proof.
  intros Hpre Hn.
  destruct (lookup_lt_is_Some_2 l n Hn) as [u Hu].
  rewrite (drop_S l u n Hu), <- app_assoc. cbn.
  rewrite insert_app_r_alt by lia.
  by replace (n - length pre)%nat with 0%nat by lia.
Qed.

(** ** Reasoning about computations, whatever the heap *)

Section respects.
Context (R : relation machine) `{!PreOrder R}.

Lemma respects_ret {A : Type} (a : A) (Q : A → Prop) :
  Q a → respects R (ret a) Q.
Proof. intros Ha m. cbn. split; [done|]. by intros ? [= <-]. Qed.

Lemma respects_bind {A B : Type} (c : M A) (f : A → M B)
    (Q1 : A → Prop) (Q2 : B → Prop) :
  respects R c Q1 → (∀ a, Q1 a → respects R (f a) Q2) →
  respects R (bind c f) Q2.
Proof.
  intros Hc Hf m. destruct (Hc m) as [HR HQ]. unfold bind.
  destruct (c m) as [[a|e] m1]; cbn [fst snd] in *.
  - destruct (Hf a (HQ a eq_refl) m1) as [HR' HQ'].
    split; [by etrans|done].
  - split; [done|]. by intros a.
Qed.

Lemma respects_for_each {St : Type} (I : Z → St → Prop)
    (f : Z → St → M St) (n : nat) :
  ∀ (a : Z) (s : St),
    (∀ k s', a ≤ k < a + Z.of_nat n → I k s' →
             respects R (f k s') (I (k + 1))) →
    I a s →
    respects R (for_each (seqZ a (Z.of_nat n)) f s) (I (a + Z.of_nat n)).
Proof.
  induction n as [|n IH]; intros a s Hf Hs.
  - cbn. rewrite Z.add_0_r. by apply respects_ret.
  - rewrite seqZ_cons by lia. cbn [for_each].
    apply respects_bind with (Q1 := I (a + 1)).
    + apply Hf; [lia|done].
    + intros s' Hs'. unfold Z.succ.
      replace (Z.pred (Z.of_nat (S n))) with (Z.of_nat n) by lia.
      replace (a + Z.of_nat (S n)) with (a + 1 + Z.of_nat n) by lia.
      apply IH; [|done]. intros k s'' Hk. apply Hf. lia.
Qed.
End respects.

Lemma seqZ_to_nat (a len : Z) : seqZ a len = seqZ a (Z.of_nat (Z.to_nat len)).
Proof. unfold seqZ. by rewrite Nat2Z.id. Qed.

#[global] Instance log_grows_preorder (P : event → Prop) :
  PreOrder (log_grows P).
Proof.
  split.
  - intros m. exists []. by rewrite app_nil_r.
  - intros m1 m2 m3 (e1 & H1 & F1) (e2 & H2 & F2). exists (e1 ++ e2).
    split; [by rewrite H2, H1, (assoc (++)) | by apply Forall_app].
Qed.

Lemma getitem_log (P : event → Prop) (b : positive) (p : Z) :
  P (Load b p) → respects (log_grows P) (getitem b p) (λ _, True).
Proof.
  intros HP m. split; [|done]. exists [Load b p].
  split; [|by repeat constructor]. unfold getitem. cbn.
  destruct (mem m !! b) as [l|]; [|done].
  destruct (py_index _ p) as [n|]; [|done].
  by destruct (l !! n).
Qed.

Lemma setitem_log (P : event → Prop) (b : positive) (p v : Z) :
  P (Store b p) → respects (log_grows P) (setitem b p v) (λ _, True).
Proof.
  intros HP m. split; [|done]. exists [Store b p].
  split; [|by repeat constructor]. unfold setitem. cbn.
  destruct (mem m !! b) as [l|]; [|done].
  by destruct (py_index _ p) as [n|].
Qed.

(** ** Slices *)

Lemma item_Some (l : list Z) (p v : Z) :
  item l p = Some v ↔ 0 ≤ p ∧ l !! Z.to_nat p = Some v.
Proof.
  unfold item. case_bool_decide; [tauto|].
  split; [done | lia].
Qed.

Lemma slice_empty (l : list Z) (a : Z) : slice l a a = [].
Proof. unfold slice. by rewrite Z.sub_diag. Qed.

Lemma slice_snoc (l : list Z) (a b v : Z) :
  0 ≤ a ≤ b → item l b = Some v → slice l a (b + 1) = slice l a b ++ [v].
Proof.
  intros Hab [_ Hv]%item_Some. unfold slice.
  replace (Z.to_nat (b + 1 - a)) with (S (Z.to_nat (b - a))) by lia.
  apply take_S_r. rewrite lookup_drop.
  by replace (Z.to_nat a + Z.to_nat (b - a))%nat with (Z.to_nat b) by lia.
Qed.

Lemma slice_cons (l : list Z) (a b v : Z) :
  0 ≤ a < b → item l a = Some v → slice l a b = v :: slice l (a + 1) b.
Proof.
  intros Hab [_ Hv]%item_Some. unfold slice.
  replace (Z.to_nat (b - a)) with (S (Z.to_nat (b - (a + 1)))) by lia.
  replace (Z.to_nat (a + 1)) with (S (Z.to_nat a)) by lia.
  by rewrite (drop_S l v (Z.to_nat a) Hv).
Qed.

Lemma slice_app (l : list Z) (a b c : Z) :
  0 ≤ a ≤ b → b ≤ c → slice l a b ++ slice l b c = slice l a c.
Proof.
  intros Hab Hbc. unfold slice.
  replace (drop (Z.to_nat b) l)
    with (drop (Z.to_nat (b - a)) (drop (Z.to_nat a) l)).
  - rewrite take_take_drop. f_equal. lia.
  - rewrite drop_drop. f_equal. lia.
Qed.

Lemma length_slice (l : list Z) (a b : Z) :
  0 ≤ a ≤ b → b ≤ Z.of_nat (length l) →
  length (slice l a b) = Z.to_nat (b - a).
Proof.
  intros Hab Hb. unfold slice. rewrite length_take, length_drop. lia.
Qed.

(** ** Interleavings grow at the end *)

Lemma interleaved_snoc_left {A : Type} (a : A) (l1 l2 l : list A) :
  interleaved l1 l2 l → interleaved (l1 ++ [a]) l2 (l ++ [a]).
Proof.
  induction 1 as [|b l1 l2 l _ IH|b l1 l2 l _ IH]; cbn.
  - apply interleaved_left, interleaved_nil.
  - by apply interleaved_left.
  - by apply interleaved_right.
Qed.

Lemma interleaved_snoc_right {A : Type} (a : A) (l1 l2 l : list A) :
  interleaved l1 l2 l → interleaved l1 (l2 ++ [a]) (l ++ [a]).
Proof.
  induction 1 as [|b l1 l2 l _ IH|b l1 l2 l _ IH]; cbn.
  - apply interleaved_right, interleaved_nil.
  - by apply interleaved_left.
  - by apply interleaved_right.
Qed.

Lemma zip_slice_snoc (l l' : list Z) (a b v w : Z) :
  0 ≤ a ≤ b → b < Z.of_nat (length l) → b < Z.of_nat (length l') →
  item l b = Some v → item l' b = Some w →
  zip (slice l a (b + 1)) (slice l' a (b + 1)) =
    zip (slice l a b) (slice l' a b) ++ [(v, w)].
Proof.
  intros Hab Hl Hl' Hv Hw.
  rewrite (slice_snoc l a b v), (slice_snoc l' a b w) by done.
  rewrite zip_with_app; [done|].
  rewrite !length_slice by lia. done.
Qed.

(** ** A call within the contract *)

Section call.
Variables (x_len : Z) (x x_inds : positive) (y_len : Z)
          (y y_inds : positive) (out_len : Z) (out out_inds : positive)
          (i j : Z) (m : machine).
Hypothesis pre :
  contract x_len x x_inds y_len y y_inds out_len out out_inds i j m.

Local Abbreviation xs := (buf m x).
Local Abbreviation xis := (buf m x_inds).
Local Abbreviation ys := (buf m y).
Local Abbreviation yis := (buf m y_inds).
Local Abbreviation framed := (framed out out_inds m).
Local Abbreviation after_step := (after_step out out_inds).
Local Abbreviation takes_y := (takes_y x_len x y_len y m).
Local Abbreviation next := (next x_len x y_len y m).
Local Abbreviation cur := (cur x_len x y_len y i j m).
Local Abbreviation emit := (emit x_len x x_inds y_len y y_inds m).
Local Abbreviation emitted :=
  (emitted x_len x x_inds y_len y y_inds i j m).
Local Abbreviation step_events :=
  (step_events x_len x x_inds y_len y y_inds out out_inds i j m).
Local Abbreviation events :=
  (events x_len x x_inds y_len y y_inds out out_inds i j m).
Local Abbreviation reached :=
  (reached x_len x x_inds y_len y y_inds out out_inds i j m).

Lemma sep_inputs :
  (x ≠ out ∧ x ≠ out_inds) ∧ (x_inds ≠ out ∧ x_inds ≠ out_inds) ∧
  (y ≠ out ∧ y ≠ out_inds) ∧ (y_inds ≠ out ∧ y_inds ≠ out_inds).
Proof using pre.
  pose proof (pre_sep_out _ _ _ _ _ _ _ _ _ _ _ _ pre) as H1.
  pose proof (pre_sep_out_inds _ _ _ _ _ _ _ _ _ _ _ _ pre) as H2.
  rewrite !not_elem_of_cons in H1, H2.
  repeat split; intros E; subst; tauto.
Qed.

(** A load from an input buffer at a position below its length, in any
    state reached by the loop. *)
Lemma load_input (b : positive) (p : Z) (m' : machine) :
  framed m' → b ≠ out → b ≠ out_inds →
  0 ≤ p < Z.of_nat (length (buf m b)) →
  ∃ v, item (buf m b) p = Some v ∧
       getitem b p m' = (Ok v, record (Load b p) m').
Proof.
  intros Hf Hb1 Hb2 Hp.
  destruct (lookup_lt_is_Some_2 (buf m b) (Z.to_nat p)) as [v Hv]; [lia|].
  exists v. split.
  - unfold item. by rewrite bool_decide_eq_true_2 by lia.
  - apply getitem_ok with (l := buf m b); [|lia|done].
    rewrite Hf by done. apply buf_bound. lia.
Qed.

Lemma guard_spec (i' j' : Z) (m' : machine) :
  framed m' → 0 ≤ i' ≤ x_len → 0 ≤ j' ≤ y_len →
  guard x_len x y_len y i' j' m' =
    (Ok (takes_y i' j'),
     {| mem := mem m';
        log := log m' ++ guard_events x_len x y_len y i' j' |}).
Proof using pre.
  intros Hf Hi Hj. unfold guard, guard_events, takes_y.
  destruct m' as [h l]. cbn [mem log].
  case_bool_decide as Hjy; cbn [andb]; [|by rewrite app_nil_r].
  case_bool_decide as Hix; cbn [orb]; [by rewrite app_nil_r|].
  destruct sep_inputs as ([? ?] & _ & [? ?] & _).
  destruct (load_input y j' (Machine h l)) as (vy & Hvy & Hgy);
    [done..| destruct pre; lia |].
  destruct (load_input x i' (record (Load y j') (Machine h l)))
    as (vx & Hvx & Hgx); [done..| destruct pre; lia |].
  unfold bind. rewrite Hgy, Hgx, Hvy, Hvx.
  unfold ret, record. cbn. by rewrite <- app_assoc.
Qed.

(** One iteration, from a state the loop can be in: it succeeds, moves
    one cursor, and stores a value of the chosen run with its index. *)
Lemma body_spec (k i' j' : Z) (m' : machine) :
  framed m' → 0 ≤ i' ≤ x_len → 0 ≤ j' ≤ y_len →
  i' < x_len ∨ j' < y_len →
  0 ≤ k < Z.of_nat (length (buf m' out)) →
  0 ≤ k < Z.of_nat (length (buf m' out_inds)) →
  ∃ v w,
    body x_len x x_inds y_len y y_inds out out_inds k (i', j') m' =
      (Ok (if takes_y i' j' then (i', j' + 1) else (i' + 1, j')),
       after_step m' k v w
         (guard_events x_len x y_len y i' j' ++
          branch_events x x_inds y y_inds out out_inds k i' j'
            (takes_y i' j'))) ∧
    (if takes_y i' j'
     then j' < y_len ∧ item ys j' = Some v ∧ item yis j' = Some w
     else i' < x_len ∧ item xs i' = Some v ∧ item xis i' = Some w).
Proof using pre.
  intros Hf Hi Hj Hrem Hk1 Hk2.
  destruct sep_inputs as ([? ?] & [? ?] & [? ?] & [? ?]).
  assert (out ≠ out_inds) by (by destruct pre).
  pose proof (guard_spec i' j' m' Hf Hi Hj) as Hg.
  assert (Hbr : ∀ (b b_inds : positive) (p : Z) (m1 : machine),
    framed m1 → b ≠ out → b ≠ out_inds → b_inds ≠ out → b_inds ≠ out_inds →
    0 ≤ p < Z.of_nat (length (buf m b)) →
    0 ≤ p < Z.of_nat (length (buf m b_inds)) →
    0 ≤ k < Z.of_nat (length (buf m1 out)) →
    0 ≤ k < Z.of_nat (length (buf m1 out_inds)) →
    ∃ v w, item (buf m b) p = Some v ∧ item (buf m b_inds) p = Some w ∧
      ∀ c : Z * Z,
      (let* v := getitem b p in
       let* _ := setitem out k v in
       let* w := getitem b_inds p in
       let* _ := setitem out_inds k w in
       ret c) m1 =
      (Ok c, after_step m1 k v w
                [Load b p; Store out k; Load b_inds p; Store out_inds k])).
  { intros b b_inds p m1 Hf1 ? ? ? ? Hp1 Hp2 Ho1 Ho2.
    destruct (load_input b p m1) as (v & Hv & Hgv); [done..|].
    set (m2 := {| mem := <[out := <[Z.to_nat k := v]> (buf m1 out)]> (mem m1);
                  log := (log m1 ++ [Load b p]) ++ [Store out k] |}).
    assert (Hf2 : framed m2).
    { intros b' ? ?. cbn. rewrite lookup_insert_ne by done. by apply Hf1. }
    destruct (load_input b_inds p m2) as (w & Hw & Hgw); [done..|].
    exists v, w. split; [done|]. split; [done|]. intros c.
    unfold bind. rewrite Hgv.
    rewrite (setitem_ok out k v (buf m1 out));
      [| cbn; apply buf_bound; lia | lia].
    cbn [record mem log]. fold m2. rewrite Hgw.
    rewrite (setitem_ok out_inds k w (buf m1 out_inds)).
    - unfold ret, after_step, m2, record. cbn [mem log].
      by rewrite <- !app_assoc.
    - unfold m2, record. cbn [mem]. rewrite lookup_insert_ne by done.
      apply buf_bound. lia.
    - lia. }
  unfold body, bind at 1. rewrite Hg. clear Hg.
  set (m1 := {| mem := mem m';
                log := log m' ++ guard_events x_len x y_len y i' j' |}).
  assert (Hf1 : framed m1) by (intros b ? ?; cbn; by apply Hf).
  destruct (takes_y i' j') eqn:Ht.
  - assert (j' < y_len) as Hjy.
    { unfold takes_y in Ht. apply andb_prop in Ht as [Ht _].
      by apply bool_decide_eq_true_1 in Ht. }
    destruct (Hbr y y_inds j' m1) as (v & w & Hv & Hw & Hrun);
      [done.. | destruct pre; lia | destruct pre; lia | done | done |].
    exists v, w. split; [|done].
    rewrite Hrun. unfold after_step, m1, buf. cbn [mem log].
    by rewrite <- app_assoc.
  - assert (i' < x_len) as Hix.
    { unfold takes_y in Ht. apply andb_false_iff in Ht as [Ht|Ht].
      - apply bool_decide_eq_false_1 in Ht. lia.
      - apply orb_false_iff in Ht as [Ht _].
        apply bool_decide_eq_false_1 in Ht. lia. }
    destruct (Hbr x x_inds i' m1) as (v & w & Hv & Hw & Hrun);
      [done.. | destruct pre; lia | destruct pre; lia | done | done |].
    exists v, w. split; [|done].
    rewrite Hrun. unfold after_step, m1, buf. cbn [mem log].
    by rewrite <- app_assoc.
Qed.

Lemma length_emitted (n : nat) : length (emitted n) = n.
Proof. unfold emitted. by rewrite length_fmap, length_seq. Qed.

Lemma emitted_S (n : nat) : emitted (S n) = emitted n ++ [emit (cur n)].
Proof. unfold emitted. by rewrite seq_S, fmap_app. Qed.

Lemma events_S (n : nat) : events (S n) = events n ++ step_events n.
Proof.
  unfold events. rewrite seq_S, fmap_app, concat_app. cbn.
  by rewrite app_nil_r.
Qed.

(** Cursors stay in range and count the iterations done. *)
Lemma cur_range (n : nat) :
  Z.of_nat n ≤ out_len →
  i ≤ (cur n).1 ≤ x_len ∧ j ≤ (cur n).2 ≤ y_len ∧
  (cur n).1 + (cur n).2 = i + j + Z.of_nat n.
Proof using pre.
  destruct pre. induction n as [|n IH]; intros Hn; cbn [cur].
  - cbn. lia.
  - destruct IH as (Hi & Hj & Hsum); [lia|].
    unfold next, takes_y.
    repeat case_bool_decide; cbn [andb orb fst snd]; lia.
Qed.

(** The code follows the description: [n] iterations succeed and reach
    the state described. *)
Lemma loop_sim (n : nat) :
  Z.of_nat n ≤ out_len →
  ∃ m', merge_loop x_len x x_inds y_len y y_inds (Z.of_nat n) out out_inds
          i j m = (Ok (cur n), m') ∧ reached n m'.
Proof using pre.
  induction n as [|n IH]; intros Hn.
  - exists m. split; [done|]. split; cbn.
    + by intros b _ _.
    + by rewrite drop_0.
    + by rewrite drop_0.
    + by rewrite app_nil_r.
  - destruct IH as (mn & Hrun & [Hf Ho Hoi Hlog]); [lia|].
    destruct (cur_range n) as (Hi & Hj & Hsum); [lia|].
    assert (Hlen1 : length (buf mn out) = length (buf m out)).
    { rewrite Ho, length_app, length_fmap, length_emitted, length_drop.
      destruct pre. lia. }
    assert (Hlen2 : length (buf mn out_inds) = length (buf m out_inds)).
    { rewrite Hoi, length_app, length_fmap, length_emitted, length_drop.
      destruct pre. lia. }
    destruct (body_spec (Z.of_nat n) (cur n).1 (cur n).2 mn)
      as (v & w & Hbody & Hvw);
      [done | destruct pre; lia.. |].
    rewrite <- surjective_pairing in Hbody.
    unfold merge_loop in *. rewrite seqZ_S, for_each_app.
    unfold bind at 1. rewrite Hrun. cbn [for_each].
    rewrite bind_ret_r, Z.add_0_l, Hbody.
    eexists. split; [done|].
    assert (Hne : out ≠ out_inds) by (by destruct pre).
    assert (Hemit : emit (cur n) = (v, w)).
    { unfold emit. destruct (takes_y _ _);
        destruct Hvw as (_ & -> & ->); done. }
    split; unfold after_step; cbn [mem log].
    + intros b ? ?. cbn [mem]. rewrite !lookup_insert_ne by done.
      by apply Hf.
    + unfold buf at 1. cbn [mem].
      rewrite lookup_insert_ne, lookup_insert_eq by done.
      cbn [default from_option id].
      rewrite Nat2Z.id, Ho, emitted_S, fmap_app, Hemit.
      apply insert_after_prefix.
      * by rewrite length_fmap, length_emitted.
      * destruct pre. lia.
    + unfold buf at 1. cbn [mem]. rewrite lookup_insert_eq.
      cbn [default from_option id].
      rewrite Nat2Z.id, Hoi, emitted_S, fmap_app, Hemit.
      apply insert_after_prefix.
      * by rewrite length_fmap, length_emitted.
      * destruct pre. lia.
    + rewrite Hlog, events_S, <- app_assoc. done.
Qed.

(** *** Reading the run off the code *)

Lemma cursors_after_cur (k : Z) :
  0 ≤ k ≤ out_len →
  cursors_after x_len x x_inds y_len y y_inds out out_inds i j m k =
    Some (cur (Z.to_nat k)).
Proof using pre.
  intros Hk. destruct (loop_sim (Z.to_nat k)) as (m' & Hrun & _); [lia|].
  unfold cursors_after. rewrite Z2Nat.id in Hrun by lia. by rewrite Hrun.
Qed.

Lemma merge_run :
  ∃ m', merge x_len x x_inds y_len y y_inds out_len out out_inds i j m =
          (Ok (), m') ∧ reached (Z.to_nat out_len) m'.
Proof using pre.
  destruct (loop_sim (Z.to_nat out_len)) as (m' & Hrun & Hr).
  { destruct pre. lia. }
  exists m'. split; [|done].
  rewrite Z2Nat.id in Hrun by (destruct pre; lia).
  unfold merge, bind. by rewrite Hrun.
Qed.

Lemma emitted_lookup (n k : nat) :
  (k < n)%nat → emitted n !! k = Some (emit (cur k)).
Proof.
  intros Hk. unfold emitted. rewrite list_lookup_fmap.
  by rewrite lookup_seq_lt.
Qed.

Lemma reached_item (n : nat) (m' : machine) (k : Z) :
  reached n m' → 0 ≤ k < Z.of_nat n →
  item (buf m' out) k = Some (emit (cur (Z.to_nat k))).1 ∧
  item (buf m' out_inds) k = Some (emit (cur (Z.to_nat k))).2.
Proof.
  intros [_ Ho Hoi _] Hk. unfold item.
  rewrite bool_decide_eq_true_2 by lia. rewrite Ho, Hoi.
  rewrite !lookup_app_l by (rewrite length_fmap, length_emitted; lia).
  rewrite !list_lookup_fmap, emitted_lookup by lia. done.
Qed.

(** What one step of the description does, in the terms of the source:
    either the Y branch (line 21-23) or the X branch (line 26-28). *)
Lemma cur_step (n : nat) :
  Z.of_nat n < out_len →
  let '(i', j') := cur n in
  (j' < y_len ∧ (i' = x_len ∨
      ∃ vy vx, item ys j' = Some vy ∧ item xs i' = Some vx ∧ vy < vx) ∧
   cur (S n) = (i', j' + 1) ∧
   ∃ v w, item ys j' = Some v ∧ item yis j' = Some w ∧ emit (cur n) = (v, w))
  ∨
  (i' < x_len ∧ (y_len ≤ j' ∨
      ∃ vy vx, item ys j' = Some vy ∧ item xs i' = Some vx ∧ vx ≤ vy) ∧
   cur (S n) = (i' + 1, j') ∧
   ∃ v w, item xs i' = Some v ∧ item xis i' = Some w ∧ emit (cur n) = (v, w)).
Proof using pre.
  intros Hn. destruct (cur_range n) as (Hi & Hj & Hsum); [lia|].
  cbn [cur]. unfold next, emit.
  destruct (cur n) as [i' j']. cbn [fst snd] in *.
  assert (Hitem : ∀ l p, 0 ≤ p < Z.of_nat (length l) →
                          ∃ v, item l p = Some v).
  { intros l p Hp. unfold item. rewrite bool_decide_eq_true_2 by lia.
    apply lookup_lt_is_Some_2. lia. }
  destruct pre.
  unfold takes_y. case_bool_decide as Hjy; cbn [andb].
  - destruct (Hitem ys j') as [vy Hvy]; [lia|].
    destruct (Hitem yis j') as [wy Hwy]; [lia|].
    rewrite Hvy, Hwy. cbn [default from_option id].
    case_bool_decide as Hix; cbn [orb].
    + left. split; [done|]. split; [by left|]. split; [done|].
      by exists vy, wy.
    + destruct (Hitem xs i') as [vx Hvx]; [lia|].
      destruct (Hitem xis i') as [wx Hwx]; [lia|].
      rewrite Hvx, Hwx. cbn [default from_option id].
      case_bool_decide as Hlt.
      * left. split; [done|]. split; [right; by exists vy, vx|].
        split; [done|]. by exists vy, wy.
      * right. split; [lia|].
        split; [right; exists vy, vx; split_and!; [done..|lia]|].
        split; [done|]. by exists vx, wx.
  - destruct (Hitem xs i') as [vx Hvx]; [lia|].
    destruct (Hitem xis i') as [wx Hwx]; [lia|].
    right. rewrite Hvx, Hwx. cbn [default from_option id].
    split; [lia|]. split; [left; lia|]. split; [done|]. by exists vx, wx.
Qed.

(** *** The log of the run *)

Lemma stores_to_app (b : positive) (e1 e2 : list event) :
  stores_to b (e1 ++ e2) = stores_to b e1 ++ stores_to b e2.
Proof. unfold stores_to. apply omap_app. Qed.

Lemma stores_step (k : nat) :
  stores_to out (step_events k) = [Z.of_nat k] ∧
  stores_to out_inds (step_events k) = [Z.of_nat k].
Proof using pre.
  assert (Hne : out ≠ out_inds) by (by destruct pre).
  unfold step_events. rewrite !stores_to_app.
  assert (Hg : ∀ b, stores_to b
            (guard_events x_len x y_len y (cur k).1 (cur k).2) = []).
  { intros b. unfold guard_events. by repeat case_bool_decide. }
  rewrite !Hg. unfold branch_events, stores_to.
  destruct (takes_y _ _); cbn; repeat case_decide; done.
Qed.

Lemma stores_events (n : nat) :
  stores_to out (events n) = seqZ 0 (Z.of_nat n) ∧
  stores_to out_inds (events n) = seqZ 0 (Z.of_nat n).
Proof using pre.
  induction n as [|n [IH1 IH2]]; [done|].
  destruct (stores_step n) as [H1 H2].
  by rewrite events_S, !stores_to_app, IH1, IH2, H1, H2, seqZ_S.
Qed.

(** *** Statements about the call *)

Local Abbreviation the_call :=
  (merge x_len x x_inds y_len y y_inds out_len out out_inds i j m).
Local Abbreviation cursors :=
  (cursors_after x_len x x_inds y_len y y_inds out out_inds i j m).

(** What iteration [k] does, read off the code: the cursors before and
    after it, and the cell of each output buffer it leaves behind. *)
Lemma iteration (m' : machine) (k : Z) :
  the_call = (Ok (), m') → 0 ≤ k < out_len →
  ∃ ik jk v w,
    cursors k = Some (ik, jk) ∧ i ≤ ik ≤ x_len ∧ j ≤ jk ≤ y_len ∧
    ik + jk = i + j + k ∧
    item (buf m' out) k = Some v ∧ item (buf m' out_inds) k = Some w ∧
    ((jk < y_len ∧
      (ik = x_len ∨
       ∃ vy vx, item ys jk = Some vy ∧ item xs ik = Some vx ∧ vy < vx) ∧
      cursors (k + 1) = Some (ik, jk + 1) ∧
      item ys jk = Some v ∧ item yis jk = Some w)
     ∨
     (ik < x_len ∧
      (y_len ≤ jk ∨
       ∃ vy vx, item ys jk = Some vy ∧ item xs ik = Some vx ∧ vx ≤ vy) ∧
      cursors (k + 1) = Some (ik + 1, jk) ∧
      item xs ik = Some v ∧ item xis ik = Some w)).
Proof using pre.
  intros Hcall Hk.
  destruct merge_run as (m'' & Hrun & Hr).
  assert (m'' = m') as -> by congruence.
  destruct (reached_item _ _ k Hr) as [Hv Hw]; [lia|].
  pose proof (cur_step (Z.to_nat k)) as Hstep.
  destruct (cur_range (Z.to_nat k)) as (Hi & Hj & Hsum); [lia|].
  rewrite !cursors_after_cur by lia.
  replace (Z.to_nat (k + 1)) with (S (Z.to_nat k)) by lia.
  destruct (cur (Z.to_nat k)) as [ik jk]. cbn [fst snd] in *.
  destruct Hstep as
    [(? & ? & Hn & v & w & ? & ? & He) | (? & ? & Hn & v & w & ? & ? & He)];
    [lia| |]; rewrite He in Hv, Hw; cbn [fst snd] in *;
    exists ik, jk, v, w; rewrite Hn;
    (split; [done|]); (split; [done|]); (split; [done|]);
    (split; [lia|]); (split; [done|]); (split; [done|]);
    [left | right]; done.
Qed.

(** When a run is exhausted from the start, every iteration takes the
    other one. *)
Lemma emitted_y_only (n : nat) :
  i = x_len → Z.of_nat n ≤ out_len →
  cur n = (i, j + Z.of_nat n) ∧
  (emitted n).*1 = slice ys j (j + Z.of_nat n) ∧
  (emitted n).*2 = slice yis j (j + Z.of_nat n).
Proof using pre.
  intros Hx. induction n as [|n IH]; intros Hn.
  - cbn [cur]. rewrite Z.add_0_r, !slice_empty. done.
  - destruct IH as (Hc & H1 & H2); [lia|].
    pose proof (cur_step n) as Hstep. rewrite Hc in Hstep.
    assert (0 ≤ j) by (destruct pre; lia).
    destruct Hstep as
      [(? & _ & Hn' & v & w & Hv & Hw & He) | (? & _)]; [lia| |lia].
    rewrite emitted_S, !fmap_app, Hc, He, H1, H2.
    cbn [fmap list_fmap fst snd].
    replace (j + Z.of_nat (S n)) with (j + Z.of_nat n + 1) by lia.
    rewrite (slice_snoc ys j _ v), (slice_snoc yis j _ w) by (done || lia).
    split; [|done]. by rewrite Hn'.
Qed.

Lemma emitted_x_only (n : nat) :
  j = y_len → Z.of_nat n ≤ out_len →
  cur n = (i + Z.of_nat n, j) ∧
  (emitted n).*1 = slice xs i (i + Z.of_nat n) ∧
  (emitted n).*2 = slice xis i (i + Z.of_nat n).
Proof using pre.
  intros Hy. induction n as [|n IH]; intros Hn.
  - cbn [cur]. rewrite Z.add_0_r, !slice_empty. done.
  - destruct IH as (Hc & H1 & H2); [lia|].
    pose proof (cur_step n) as Hstep. rewrite Hc in Hstep.
    assert (0 ≤ i) by (destruct pre; lia).
    destruct Hstep as
      [(? & _) | (? & _ & Hn' & v & w & Hv & Hw & He)]; [lia|lia|].
    rewrite emitted_S, !fmap_app, Hc, He, H1, H2.
    cbn [fmap list_fmap fst snd].
    replace (i + Z.of_nat (S n)) with (i + Z.of_nat n + 1) by lia.
    rewrite (slice_snoc xs i _ v), (slice_snoc xis i _ w) by (done || lia).
    split; [|done]. by rewrite Hn'.
Qed.

Lemma reached_prefix (n : nat) (m' : machine) :
  reached n m' →
  slice (buf m' out) 0 (Z.of_nat n) = (emitted n).*1 ∧
  slice (buf m' out_inds) 0 (Z.of_nat n) = (emitted n).*2.
Proof.
  intros [_ Ho Hoi _]. unfold slice. rewrite Ho, Hoi.
  change (Z.to_nat 0) with 0%nat. rewrite !drop_0, Z.sub_0_r, Nat2Z.id.
  by rewrite !take_app_length' by (by rewrite length_fmap, length_emitted).
Qed.

(** *** Order of the emitted values *)

(** The head of an ascending tail bounds the rest of it. *)
Lemma ascending_tail (l : list Z) (a b c v : Z) :
  StronglySorted Z.le (slice l a c) → 0 ≤ a ≤ b → b < c →
  item l b = Some v →
  slice l b c = v :: slice l (b + 1) c ∧
  Forall (Z.le v) (slice l (b + 1) c) ∧
  Forall (λ u, u ≤ v) (slice l a b).
Proof.
  intros Hs Hab Hbc Hv.
  rewrite <- (slice_app l a b c) in Hs by lia.
  rewrite (slice_cons l b c v) in Hs by (done || lia).
  apply StronglySorted_app in Hs as (Hle & _ & Hs).
  apply StronglySorted_cons in Hs as [Hs _].
  split; [by apply slice_cons; [lia|] |]. split; [done|].
  apply Forall_forall. intros u Hu. apply Hle; [done | by left].
Qed.

Lemma emitted_order (n : nat) :
  StronglySorted Z.le (slice xs i x_len) →
  StronglySorted Z.le (slice ys j y_len) →
  Z.of_nat n ≤ out_len →
  (emitted n).*1 ≡ₚ slice xs i (cur n).1 ++ slice ys j (cur n).2 ∧
  StronglySorted Z.le (emitted n).*1 ∧
  (∀ u w, u ∈ (emitted n).*1 →
          w ∈ slice xs (cur n).1 x_len ++ slice ys (cur n).2 y_len → u ≤ w).
Proof using pre.
  intros Hsx Hsy. induction n as [|n IH]; intros Hn.
  - cbn [cur fst snd emitted seq fmap list_fmap].
    rewrite !slice_empty. split; [done|]. split; [constructor|].
    intros u w Hu. by apply elem_of_nil in Hu.
  - destruct IH as (Hperm & Hsorted & Hlow); [lia|].
    pose proof (cur_step n) as Hstep.
    destruct (cur_range n) as (Hi & Hj & _); [lia|].
    assert (0 ≤ i ∧ 0 ≤ j) as [? ?] by (destruct pre; lia).
    destruct (cur n) as [i' j'] eqn:Hc. cbn [fst snd] in *.
    rewrite emitted_S, fmap_app, Hc.
    destruct Hstep as
      [(Hjy & Hwhy & -> & v & w & Hv & Hw & ->)
      |(Hix & Hwhy & -> & v & w & Hv & Hw & ->)]; [lia| |];
      cbn [fmap list_fmap fst snd].
    + (* the Y branch *)
      destruct (ascending_tail ys j j' y_len v) as (Hcons & Hrest & _);
        [done | lia | lia | done |].
      rewrite Hcons in Hlow.
      split; [|split].
      * rewrite (slice_snoc ys j j' v) by (done || lia).
        rewrite Hperm. by rewrite (assoc (++)).
      * apply StronglySorted_app_2; [|done|repeat constructor].
        intros u1 u2 Hu1 ->%list_elem_of_singleton.
        apply Hlow; [done|]. rewrite elem_of_app, elem_of_cons. tauto.
      * intros u1 u2 [Hu1 | ->%list_elem_of_singleton]%elem_of_app Hu2.
        { apply Hlow; [done|].
          rewrite elem_of_app, elem_of_cons.
          rewrite elem_of_app in Hu2. tauto. }
        apply elem_of_app in Hu2 as [Hu2|Hu2].
        { destruct Hwhy as [-> | (vy & vx & Hvy & Hvx & Hlt)].
          - rewrite slice_empty in Hu2. by apply elem_of_nil in Hu2.
          - assert (vy = v) as -> by congruence.
            destruct (decide (i' < x_len)) as [Hlt'|];
              [|replace (x_len - i') with (x_len - i' - 0) in * by lia;
                unfold slice in Hu2;
                replace (Z.to_nat (x_len - i')) with 0%nat in Hu2 by lia;
                by apply elem_of_nil in Hu2].
            destruct (ascending_tail xs i i' x_len vx) as (Hcx & Hrx & _);
              [done | lia | lia | done |].
            rewrite Hcx in Hu2. apply elem_of_cons in Hu2 as [-> | Hu2];
              [lia|].
            rewrite Forall_forall in Hrx. specialize (Hrx _ Hu2). lia. }
        rewrite Forall_forall in Hrest. by apply Hrest.
    + (* the X branch *)
      destruct (ascending_tail xs i i' x_len v) as (Hcons & Hrest & _);
        [done | lia | lia | done |].
      rewrite Hcons in Hlow.
      split; [|split].
      * rewrite (slice_snoc xs i i' v) by (done || lia).
        rewrite Hperm. rewrite <- !(assoc (++)).
        apply Permutation_app_head, Permutation_app_comm.
      * apply StronglySorted_app_2; [|done|repeat constructor].
        intros u1 u2 Hu1 ->%list_elem_of_singleton.
        apply Hlow; [done|]. rewrite elem_of_app, elem_of_cons. tauto.
      * intros u1 u2 [Hu1 | ->%list_elem_of_singleton]%elem_of_app Hu2.
        { apply Hlow; [done|].
          rewrite elem_of_app, elem_of_cons.
          rewrite elem_of_app in Hu2. tauto. }
        apply elem_of_app in Hu2 as [Hu2|Hu2].
        { rewrite Forall_forall in Hrest. by apply Hrest. }
        destruct Hwhy as [Hex | (vy & vx & Hvy & Hvx & Hle)].
        { unfold slice in Hu2.
          replace (Z.to_nat (y_len - j')) with 0%nat in Hu2 by lia.
          by apply elem_of_nil in Hu2. }
        assert (vx = v) as -> by congruence.
        destruct (decide (j' < y_len)) as [Hlt'|].
        2:{ unfold slice in Hu2.
            replace (Z.to_nat (y_len - j')) with 0%nat in Hu2 by lia.
            by apply elem_of_nil in Hu2. }
        destruct (ascending_tail ys j j' y_len vy) as (Hcy & Hry & _);
          [done | lia | lia | done |].
        rewrite Hcy in Hu2. apply elem_of_cons in Hu2 as [-> | Hu2];
          [lia|].
        rewrite Forall_forall in Hry. specialize (Hry _ Hu2). lia.
Qed.

Lemma ascending_items (l : list Z) (a c b1 b2 v1 v2 : Z) :
  StronglySorted Z.le (slice l a c) → 0 ≤ a ≤ b1 → b1 ≤ b2 → b2 < c →
  item l b1 = Some v1 → item l b2 = Some v2 → v1 ≤ v2.
Proof.
  intros Hs Ha H12 Hc H1 H2.
  destruct (decide (b1 = b2)) as [->|Hne].
  { assert (v1 = v2) by congruence. lia. }
  destruct (ascending_tail l a b2 c v2) as (_ & _ & Hbelow);
    [done | lia | lia | done |].
  rewrite Forall_forall in Hbelow. apply Hbelow.
  rewrite <- (slice_app l a b1 b2) by lia.
  rewrite (slice_cons l b1 b2 v1) by (done || lia).
  rewrite elem_of_app, elem_of_cons. tauto.
Qed.

Lemma ascending_suffix (l : list Z) (a c : Z) :
  Sorted Z.le (slice l 0 c) → 0 ≤ a ≤ c →
  StronglySorted Z.le (slice l a c).
Proof.
  intros Hs Ha. apply Sorted_StronglySorted in Hs; [|apply _].
  rewrite <- (slice_app l 0 a c) in Hs by lia.
  by apply StronglySorted_app_1_r in Hs.
Qed.

Lemma cur_mono (n1 n2 : nat) :
  (n1 ≤ n2)%nat →
  (cur n1).1 ≤ (cur n2).1 ∧ (cur n1).2 ≤ (cur n2).2.
Proof.
  induction 1 as [|n2 _ IH]; [lia|].
  cbn [cur]. unfold next. destruct (takes_y _ _); cbn [fst snd]; lia.
Qed.

(** C1 (sortedness preservation): for ascending runs X and Y and a call
    within the contract, the output prefix [out[0:out_len]] is ascending
    and equals the first [out_len] elements of the sorted merge of the
    tails [x[i:x_len]] and [y[j:y_len]]. *)
Theorem merge_sorted_prefix :
  Sorted Z.le (slice xs 0 x_len) → Sorted Z.le (slice ys 0 y_len) →
  ∃ m', the_call = (Ok (), m') ∧
    Sorted Z.le (slice (buf m' out) 0 out_len) ∧
    slice (buf m' out) 0 out_len =
      take (Z.to_nat out_len)
        (merge_sort Z.le (slice xs i x_len ++ slice ys j y_len)).
Proof using pre.
  intros Hx Hy.
  assert (0 ≤ i ≤ x_len ∧ 0 ≤ j ≤ y_len ∧ 0 ≤ out_len) as (Hi & Hj & Hn)
    by (destruct pre; lia).
  apply (ascending_suffix _ i) in Hx; [|done].
  apply (ascending_suffix _ j) in Hy; [|done].
  destruct merge_run as (m' & Hrun & Hr). exists m'. split; [done|].
  destruct (reached_prefix _ _ Hr) as [Hpre _].
  rewrite Z2Nat.id in Hpre by done. rewrite Hpre.
  destruct (emitted_order (Z.to_nat out_len) Hx Hy)
    as (Hperm & Hsorted & Hlow); [lia|].
  destruct (cur_range (Z.to_nat out_len)) as (Hci & Hcj & _); [lia|].
  split; [by apply StronglySorted_Sorted|].
  set (vals := (emitted (Z.to_nat out_len)).*1) in *.
  set (rest := slice xs (cur (Z.to_nat out_len)).1 x_len ++
               slice ys (cur (Z.to_nat out_len)).2 y_len) in *.
  assert (Hall : vals ++ merge_sort Z.le rest =
                 merge_sort Z.le (slice xs i x_len ++ slice ys j y_len)).
  { apply (StronglySorted_unique Z.le).
    - apply StronglySorted_app_2; [|done|].
      + intros u w Hu Hw. apply Hlow; [done|].
        by rewrite <- (merge_sort_Permutation Z.le rest).
      + apply StronglySorted_merge_sort; apply _.
    - apply StronglySorted_merge_sort; apply _.
    - rewrite !merge_sort_Permutation, Hperm. unfold rest.
      rewrite <- (slice_app xs i (cur (Z.to_nat out_len)).1 x_len) by lia.
      rewrite <- (slice_app ys j (cur (Z.to_nat out_len)).2 y_len) by lia.
      rewrite <- !(assoc (++)). apply Permutation_app_head.
      rewrite !(assoc (++)). apply Permutation_app_tail.
      apply Permutation_app_comm. }
  rewrite <- Hall. symmetry. apply take_app_length'.
  unfold vals. by rewrite length_fmap, length_emitted.
Qed.

(** C3 (stable, X-favouring): in a call within the contract with X
    ascending, (1) at an iteration where both runs are unexhausted and
    [x[i] == y[j]], the X branch runs: the X cursor advances and the
    element of X and its index are stored; (2) whenever an element stored
    by the X branch and one stored by the Y branch are equal, the one
    from X is at the earlier output position. *)
Theorem merge_stable :
  Sorted Z.le (slice xs 0 x_len) →
  ∃ m', the_call = (Ok (), m') ∧
    (∀ k ik jk v,
       0 ≤ k < out_len → cursors k = Some (ik, jk) →
       ik < x_len → jk < y_len →
       item xs ik = Some v → item ys jk = Some v →
       cursors (k + 1) = Some (ik + 1, jk) ∧
       item (buf m' out) k = Some v ∧
       item (buf m' out_inds) k = item xis ik) ∧
    (∀ p q ip jp iq jq v,
       0 ≤ p < out_len → 0 ≤ q < out_len →
       cursors p = Some (ip, jp) → cursors (p + 1) = Some (ip + 1, jp) →
       cursors q = Some (iq, jq) → cursors (q + 1) = Some (iq, jq + 1) →
       item (buf m' out) p = Some v → item (buf m' out) q = Some v →
       p < q).
Proof using pre.
  intros Hx.
  assert (0 ≤ i ≤ x_len) as Hi by (destruct pre; lia).
  apply (ascending_suffix _ i) in Hx; [|done].
  destruct merge_run as (m' & Hrun & Hr). exists m'. split; [done|].
  split.
  - intros k ik jk v Hk Hc Hix Hjy Hxv Hyv.
    destruct (iteration m' k Hrun Hk)
      as (ik' & jk' & v' & w' & Hc' & _ & _ & _ & Hv' & Hw' & Hbr).
    rewrite Hc in Hc'. injection Hc' as <- <-.
    destruct Hbr as [(_ & Hwhy & _) | (_ & _ & Hn & Hv & Hw)].
    + destruct Hwhy as [-> | (vy & vx & Hvy & Hvx & Hlt)]; [lia|].
      rewrite Hxv in Hvx. rewrite Hyv in Hvy. simplify_eq. lia.
    + rewrite Hxv in Hv. injection Hv as <-.
      by rewrite Hn, Hv', Hw', Hw.
  - intros p q ip jp iq jq v Hp Hq Hcp Hcp' Hcq Hcq' Hvp Hvq.
    destruct (iteration m' p Hrun Hp)
      as (ip' & jp' & vp & wp & Hc1 & _ & _ & _ & Hv1 & _ & Hbr1).
    rewrite Hcp in Hc1. injection Hc1 as <- <-.
    rewrite Hvp in Hv1. injection Hv1 as <-.
    destruct Hbr1 as [(_ & _ & Hn1 & _) | (Hix & _ & _ & Hxp & _)].
    { rewrite Hcp' in Hn1. injection Hn1 as ? ?. lia. }
    destruct (iteration m' q Hrun Hq)
      as (iq' & jq' & vq & wq & Hc2 & _ & _ & _ & Hv2 & _ & Hbr2).
    rewrite Hcq in Hc2. injection Hc2 as <- <-.
    rewrite Hvq in Hv2. injection Hv2 as <-.
    destruct Hbr2 as [(_ & Hwhy & _ & Hyq & _) | (_ & _ & Hn2 & _)].
    2:{ rewrite Hcq' in Hn2. injection Hn2 as ? ?. lia. }
    destruct (decide (p < q)) as [|Hge]; [done|]. exfalso.
    (* the Y branch ran first: its value is strictly below x[iq] *)
    destruct (cur_mono (Z.to_nat q) (Z.to_nat p)) as [Hmono _]; [lia|].
    rewrite cursors_after_cur in Hcp, Hcq by lia.
    injection Hcp as Hcp. injection Hcq as Hcq.
    rewrite Hcp, Hcq in Hmono. cbn [fst] in Hmono.
    destruct (cur_range (Z.to_nat q)) as (Hiq & _); [lia|].
    rewrite Hcq in Hiq. cbn [fst] in Hiq.
    destruct Hwhy as [-> | (vy & vx & Hvy & Hvx & Hlt)]; [lia|].
    assert (vy = v) as -> by congruence.
    assert (vx ≤ v); [|lia].
    apply (ascending_items xs i x_len iq ip); [done | lia.. | done | done].
Qed.

(** C4 (index pairing integrity): in a call within the contract, every
    output position [k] below [out_len] holds a value and an index read
    at one and the same cursor position of one run: either [x[ik]] and
    [x_inds[ik]] (and the X cursor advanced), or [y[jk]] and [y_inds[jk]]
    (and the Y cursor advanced), where [(ik, jk)] are the cursors before
    iteration [k]. *)
Theorem merge_index_pairing :
  ∃ m', the_call = (Ok (), m') ∧
    ∀ k, 0 ≤ k < out_len →
      ∃ ik jk v w,
        cursors k = Some (ik, jk) ∧
        item (buf m' out) k = Some v ∧
        item (buf m' out_inds) k = Some w ∧
        ((cursors (k + 1) = Some (ik + 1, jk) ∧ i ≤ ik < x_len ∧
          item xs ik = Some v ∧ item xis ik = Some w)
         ∨
         (cursors (k + 1) = Some (ik, jk + 1) ∧ j ≤ jk < y_len ∧
          item ys jk = Some v ∧ item yis jk = Some w)).
Proof using pre.
  destruct merge_run as (m' & Hrun & Hr). exists m'. split; [done|].
  intros k Hk.
  destruct (iteration m' k Hrun Hk)
    as (ik & jk & v & w & Hc & Hi & Hj & _ & Hv & Hw & Hbr).
  exists ik, jk, v, w. split; [done|]. split; [done|]. split; [done|].
  destruct Hbr as [(? & _ & ? & ? & ?) | (? & _ & ? & ? & ?)];
    [right | left]; (split; [done|]); (split; [lia|]); done.
Qed.

(** C6 (exhaustion): in a call within the contract, if X is exhausted at
    the start ([x_len - i = 0]) the output is [y[j : j+out_len]] and
    [y_inds[j : j+out_len]] verbatim; if Y is exhausted at the start the
    output is [x[i : i+out_len]] and [x_inds[i : i+out_len]]. *)
Theorem merge_exhaustion :
  ∃ m', the_call = (Ok (), m') ∧
    (x_len - i = 0 →
       slice (buf m' out) 0 out_len = slice ys j (j + out_len) ∧
       slice (buf m' out_inds) 0 out_len = slice yis j (j + out_len)) ∧
    (y_len - j = 0 →
       slice (buf m' out) 0 out_len = slice xs i (i + out_len) ∧
       slice (buf m' out_inds) 0 out_len = slice xis i (i + out_len)).
Proof using pre.
  destruct merge_run as (m' & Hrun & Hr). exists m'. split; [done|].
  assert (0 ≤ out_len) as Hn by (destruct pre; lia).
  destruct (reached_prefix _ _ Hr) as [Hp1 Hp2].
  rewrite Z2Nat.id in Hp1, Hp2 by done. rewrite Hp1, Hp2.
  split; intros Hex.
  - destruct (emitted_y_only (Z.to_nat out_len)) as (_ & H1 & H2);
      [lia | lia |].
    rewrite Z2Nat.id in H1, H2 by done. done.
  - destruct (emitted_x_only (Z.to_nat out_len)) as (_ & H1 & H2);
      [lia | lia |].
    rewrite Z2Nat.id in H1, H2 by done. done.
Qed.

(** C9 (iteration count): a call within the contract runs the loop body
    exactly [out_len] times, once for each output position 0, 1, ...,
    [out_len - 1] in order, and returns; every iteration advances exactly
    one of the two cursors by one, the cursors never fall below their
    starting values, and together they advance by [out_len]. *)
Theorem merge_iterations :
  ∃ iF jF m' evs,
    merge_loop x_len x x_inds y_len y y_inds out_len out out_inds i j m =
      (Ok (iF, jF), m') ∧
    the_call = (Ok (), m') ∧
    log m' = log m ++ evs ∧
    stores_to out evs = seqZ 0 out_len ∧
    stores_to out_inds evs = seqZ 0 out_len ∧
    i ≤ iF ∧ j ≤ jF ∧ (iF - i) + (jF - j) = out_len ∧
    ∀ k, 0 ≤ k < out_len →
      ∃ ik jk, cursors k = Some (ik, jk) ∧ i ≤ ik ∧ j ≤ jk ∧
        (cursors (k + 1) = Some (ik + 1, jk) ∨
         cursors (k + 1) = Some (ik, jk + 1)).
Proof using pre.
  assert (0 ≤ out_len) as Hn by (destruct pre; lia).
  destruct (loop_sim (Z.to_nat out_len)) as (m' & Hloop & Hr); [lia|].
  rewrite Z2Nat.id in Hloop by done.
  destruct (cur_range (Z.to_nat out_len)) as (Hi & Hj & Hsum); [lia|].
  destruct (stores_events (Z.to_nat out_len)) as [Hs1 Hs2].
  rewrite Z2Nat.id in Hs1, Hs2 by done.
  assert (Hcall : the_call = (Ok (), m')).
  { unfold merge, bind. by rewrite Hloop. }
  exists (cur (Z.to_nat out_len)).1, (cur (Z.to_nat out_len)).2, m',
    (events (Z.to_nat out_len)).
  rewrite <- surjective_pairing.
  split; [done|]. split; [done|]. split; [by destruct Hr|].
  split; [done|]. split; [done|].
  split; [lia|]. split; [lia|]. split; [lia|].
  intros k Hk.
  destruct (iteration m' k Hcall Hk)
    as (ik & jk & v & w & Hc & ? & ? & _ & _ & _ & Hbr).
  exists ik, jk. split; [done|]. split; [lia|]. split; [lia|].
  destruct Hbr as [(_ & _ & ? & _) | (_ & _ & ? & _)]; [by right | by left].
Qed.

(** *** More about a call within the contract *)

Lemma emitted_interleaved (n : nat) :
  Z.of_nat n ≤ out_len →
  interleaved
    (zip (slice xs i (cur n).1) (slice xis i (cur n).1))
    (zip (slice ys j (cur n).2) (slice yis j (cur n).2))
    (emitted n).
Proof using pre.
  induction n as [|n IH]; intros Hn.
  - cbn [cur fst snd]. rewrite !slice_empty. apply interleaved_nil.
  - specialize (IH ltac:(lia)).
    pose proof (cur_step n) as Hstep.
    destruct (cur_range n) as (Hi & Hj & _); [lia|].
    assert (0 ≤ i ∧ 0 ≤ j) as [? ?] by (destruct pre; lia).
    rewrite emitted_S.
    destruct (cur n) as [i' j'] eqn:Hc. cbn [fst snd] in *.
    destruct Hstep as
      [(Hjy & _ & -> & v & w & Hv & Hw & ->)
      |(Hix & _ & -> & v & w & Hv & Hw & ->)]; [lia| |]; cbn [fst snd].
    + rewrite (zip_slice_snoc ys yis j j' v w);
        [| lia | destruct pre; lia | destruct pre; lia | done | done].
      by apply interleaved_snoc_right.
    + rewrite (zip_slice_snoc xs xis i i' v w);
        [| lia | destruct pre; lia | destruct pre; lia | done | done].
      by apply interleaved_snoc_left.
Qed.

(** X1 (order-preserving interleaving): a call within the contract, on
    runs that need not be ascending, ends with cursors [(iF, jF)] such that
    the pairs (value, index) left in [out[0:out_len]] and
    [out_inds[0:out_len]] are an interleaving of the pairs of
    [x[i:iF]], [x_inds[i:iF]] and of [y[j:jF]], [y_inds[j:jF]]: exactly the
    consumed elements, each run in its own order, each value with its
    index. *)
Theorem merge_interleaves :
  ∃ iF jF m',
    merge_loop x_len x x_inds y_len y y_inds out_len out out_inds i j m =
      (Ok (iF, jF), m') ∧
    the_call = (Ok (), m') ∧
    interleaved
      (zip (slice xs i iF) (slice xis i iF))
      (zip (slice ys j jF) (slice yis j jF))
      (zip (slice (buf m' out) 0 out_len)
           (slice (buf m' out_inds) 0 out_len)).
Proof using pre.
  assert (0 ≤ out_len) as Hn by (destruct pre; lia).
  destruct (loop_sim (Z.to_nat out_len)) as (m' & Hloop & Hr); [lia|].
  rewrite Z2Nat.id in Hloop by done.
  exists (cur (Z.to_nat out_len)).1, (cur (Z.to_nat out_len)).2, m'.
  rewrite <- surjective_pairing. split; [done|].
  split; [unfold merge, bind; by rewrite Hloop|].
  destruct (reached_prefix _ _ Hr) as [Hp1 Hp2].
  rewrite Z2Nat.id in Hp1, Hp2 by done.
  rewrite Hp1, Hp2, zip_fst_snd.
  apply emitted_interleaved. lia.
Qed.

(** X2 (cursor invariant): in a call within the contract, after any number
    [k <= out_len] of iterations the cursors are in range, [i <= ik <= x_len]
    and [j <= jk <= y_len], they have advanced by [k] together, and later
    cursors are never below earlier ones. *)
Theorem merge_cursor_bounds :
  (∀ k, 0 ≤ k ≤ out_len →
     ∃ ik jk,
       cursors_after x_len x x_inds y_len y y_inds out out_inds i j m k =
         Some (ik, jk) ∧
       i ≤ ik ≤ x_len ∧ j ≤ jk ≤ y_len ∧ (ik - i) + (jk - j) = k) ∧
  (∀ k1 k2 i1 j1 i2 j2, 0 ≤ k1 ≤ k2 → k2 ≤ out_len →
     cursors_after x_len x x_inds y_len y y_inds out out_inds i j m k1 =
       Some (i1, j1) →
     cursors_after x_len x x_inds y_len y y_inds out out_inds i j m k2 =
       Some (i2, j2) →
     i1 ≤ i2 ∧ j1 ≤ j2).
Proof using pre.
  split.
  - intros k Hk.
    destruct (cur_range (Z.to_nat k)) as (Hi & Hj & Hsum); [lia|].
    exists (cur (Z.to_nat k)).1, (cur (Z.to_nat k)).2.
    rewrite <- surjective_pairing.
    split; [by apply cursors_after_cur|]. lia.
  - intros k1 k2 i1 j1 i2 j2 H1 H2 Hc1 Hc2.
    rewrite cursors_after_cur in Hc1, Hc2 by lia.
    injection Hc1 as Hc1. injection Hc2 as Hc2.
    destruct (cur_mono (Z.to_nat k1) (Z.to_nat k2)) as [Hm1 Hm2]; [lia|].
    rewrite Hc1, Hc2 in Hm1, Hm2. done.
Qed.

End call.

(** ** Loads, whatever the heap holds *)

Section loads.
Variables (x_len : Z) (x x_inds : positive) (y_len : Z)
          (y y_inds : positive) (out_len : Z) (out out_inds : positive)
          (i j : Z).
Hypothesis Hi : 0 ≤ i ≤ x_len.
Hypothesis Hj : 0 ≤ j ≤ y_len.
Hypothesis Hlen : out_len ≤ (x_len - i) + (y_len - j).

Local Abbreviation in_bounds :=
  (load_in_bounds x_len x x_inds y_len y y_inds).
Local Abbreviation cursors_ok := (cursors_ok x_len y_len i j).

Lemma guard_loads (i' j' : Z) :
  0 ≤ i' ≤ x_len → 0 ≤ j' →
  respects (log_grows in_bounds) (guard x_len x y_len y i' j')
    (λ t, if t then j' < y_len else j' < y_len → i' < x_len).
Proof.
  intros Hi' Hj'. unfold guard.
  case_bool_decide as Hjy; [|apply respects_ret; [apply _ | lia]].
  case_bool_decide as Hix; [apply respects_ret; [apply _ | done]|].
  eapply respects_bind; [apply _| apply getitem_log |].
  { cbn. right; right; left. split; [done|lia]. }
  intros vy _. eapply respects_bind; [apply _| apply getitem_log |].
  { cbn. left. split; [done|lia]. }
  intros vx _. apply respects_ret; [apply _|].
  case_bool_decide; [done|lia].
Qed.

Lemma branch_loads (b b_inds : positive) (p k : Z) (c : Z * Z)
    (Q : Z * Z → Prop) :
  in_bounds (Load b p) → in_bounds (Load b_inds p) → Q c →
  respects (log_grows in_bounds)
    (let* v := getitem b p in
     let* _ := setitem out k v in
     let* w := getitem b_inds p in
     let* _ := setitem out_inds k w in
     ret c) Q.
Proof.
  intros H1 H2 HQ.
  eapply respects_bind; [apply _ | by apply getitem_log |]. intros v _.
  eapply respects_bind; [apply _ | by apply setitem_log |]. intros _ _.
  eapply respects_bind; [apply _ | by apply getitem_log |]. intros w _.
  eapply respects_bind; [apply _ | by apply setitem_log |]. intros _ _.
  apply respects_ret; [apply _ | done].
Qed.

Lemma body_loads (k : Z) (c : Z * Z) :
  k < out_len → cursors_ok k c →
  respects (log_grows in_bounds)
    (body x_len x x_inds y_len y y_inds out out_inds k c)
    (cursors_ok (k + 1)).
Proof using Hi Hj Hlen.
  intros Hk (Hci & Hcj & Hsum). destruct c as [i' j']. cbn [fst snd] in *.
  unfold body.
  eapply respects_bind; [apply _ | apply guard_loads; lia |].
  intros [|] Ht.
  - apply branch_loads.
    + cbn. right; right; left. split; [done|lia].
    + cbn. right; right; right. split; [done|lia].
    + unfold cursors_ok. cbn. lia.
  - assert (i' < x_len) by lia.
    apply branch_loads.
    + cbn. left. split; [done|lia].
    + cbn. right; left. split; [done|lia].
    + unfold cursors_ok. cbn. lia.
Qed.

Lemma merge_loads (m : machine) :
  log_grows in_bounds m
    (merge x_len x x_inds y_len y y_inds out_len out out_inds i j m).2.
Proof using Hi Hj Hlen.
  assert (Hr : respects (log_grows in_bounds)
            (merge x_len x x_inds y_len y y_inds out_len out out_inds i j)
            (λ _, True)).
  { unfold merge, merge_loop. rewrite seqZ_to_nat.
    eapply respects_bind;
      [apply _ | | intros; apply respects_ret; [apply _ | done]].
    apply respects_for_each with (I := cursors_ok).
    - apply _.
    - intros k c Hk Hc. apply body_loads; [lia|done].
    - unfold cursors_ok. cbn. lia. }
  apply Hr.
Qed.
End loads.

(** ** Stores, whatever the heap holds *)

#[global] Instance writes_only_preorder (out_len : Z)
    (out out_inds : positive) : PreOrder (writes_only out_len out out_inds).
Proof.
  split.
  - intros m. split; [done|]. split; [done|]. split; [done|]. reflexivity.
  - intros m1 m2 m3 (A1 & B1 & C1 & D1) (A2 & B2 & C2 & D2).
    split; [|split; [|split]].
    + intros b ? ?. by rewrite A2, A1.
    + intros b. by rewrite B2, B1.
    + intros b p ?. by rewrite C2, C1.
    + by etrans.
Qed.

Section frame.
Variables (out_len : Z) (out out_inds : positive).

Local Abbreviation framed_by := (writes_only out_len out out_inds).

Lemma getitem_frame (b : positive) (p : Z) :
  respects framed_by (getitem b p) (λ _, True).
Proof.
  intros m. split; [|done].
  assert (Hm : mem (getitem b p m).2 = mem m).
  { unfold getitem. cbn. destruct (mem m !! b) as [l|]; [|done].
    destruct (py_index _ p) as [n|]; [|done]. by destruct (l !! n). }
  unfold writes_only, buf. rewrite Hm. repeat split; try done.
  by apply (getitem_log _ b p).
Qed.

Lemma setitem_frame (b : positive) (p v : Z) :
  b = out ∨ b = out_inds → 0 ≤ p < out_len →
  respects framed_by (setitem b p v) (λ _, True).
Proof.
  intros Hb Hp m. split; [|done].
  assert (Hlog : log_grows (store_in_frame out_len out out_inds) m
                   (setitem b p v m).2)
    by (by apply (setitem_log _ b p v)).
  unfold setitem in *. cbn in *.
  destruct (mem m !! b) as [l|] eqn:Hl; [|by repeat split].
  unfold py_index in *.
  rewrite (bool_decide_eq_false_2 (p < 0)) in * by lia.
  case_bool_decide as Hin; [|by repeat split].
  cbn [snd mem] in *.
  assert (Hbuf : ∀ b', buf {| mem := <[b := <[Z.to_nat p := v]> l]> (mem m);
                             log := log m ++ [Store b p] |} b' =
                       if decide (b' = b) then <[Z.to_nat p := v]> l
                       else buf m b').
  { intros b'. unfold buf. cbn [mem]. case_decide as Hd.
    - subst b'. by rewrite lookup_insert_eq.
    - by rewrite lookup_insert_ne. }
  split; [|split; [|split]]; [| | |done].
  + intros b' ? ?. apply lookup_insert_ne. intros ->. tauto.
  + intros b'. rewrite Hbuf. case_decide as Hd; [|done].
    subst b'. rewrite length_insert. unfold buf. by rewrite Hl.
  + intros b' p' Hp'. rewrite Hbuf. case_decide as Hd; [|done].
    subst b'. unfold item, buf. rewrite Hl. cbn.
    case_bool_decide; [|done]. apply list_lookup_insert_ne. lia.
Qed.

Lemma body_frame (x_len : Z) (x x_inds : positive) (y_len : Z)
    (y y_inds : positive) (k : Z) (c : Z * Z) :
  0 ≤ k < out_len →
  respects framed_by
    (body x_len x x_inds y_len y y_inds out out_inds k c) (λ _, True).
Proof.
  intros Hk. destruct c as [i j]. unfold body.
  assert (Hbr : ∀ (b b_inds : positive) (p : Z) (c : Z * Z),
    respects framed_by
      (let* v := getitem b p in
       let* _ := setitem out k v in
       let* w := getitem b_inds p in
       let* _ := setitem out_inds k w in
       ret c) (λ _, True)).
  { intros b b_inds p c.
    eapply respects_bind; [apply _ | apply getitem_frame |]. intros v _.
    eapply respects_bind;
      [apply _ | apply setitem_frame; [by left | done] |]. intros _ _.
    eapply respects_bind; [apply _ | apply getitem_frame |]. intros w _.
    eapply respects_bind;
      [apply _ | apply setitem_frame; [by right | done] |]. intros _ _.
    apply respects_ret; [apply _ | done]. }
  eapply respects_bind with (Q1 := λ _, True); [apply _ | |].
  - unfold guard. repeat case_bool_decide;
      try (apply respects_ret; [apply _ | done]).
    eapply respects_bind; [apply _ | apply getitem_frame |]. intros vy _.
    eapply respects_bind; [apply _ | apply getitem_frame |]. intros vx _.
    apply respects_ret; [apply _ | done].
  - intros [|] _; apply Hbr.
Qed.

Lemma merge_writes_only (x_len : Z) (x x_inds : positive) (y_len : Z)
    (y y_inds : positive) (i j : Z) (m : machine) :
  framed_by m
    (merge x_len x x_inds y_len y y_inds out_len out out_inds i j m).2.
Proof.
  assert (Hr : respects framed_by
            (merge x_len x x_inds y_len y y_inds out_len out out_inds i j)
            (λ _, True)).
  { unfold merge, merge_loop. rewrite seqZ_to_nat.
    eapply respects_bind;
      [apply _ | | intros; apply respects_ret; [apply _ | done]].
    apply respects_for_each with (I := λ _ _, True); [apply _ | | done].
    intros k c Hk _. apply body_frame. lia. }
  apply Hr.
Qed.
End frame.

(** ** Statements that need no contract *)

(** C5 (reads stay inside the runs): with the starting cursors in range and
    [out_len] no larger than what remains, every load the routine performs
    is from [x] or [x_inds] at a position in [0, x_len), or from [y] or
    [y_inds] at a position in [0, y_len), whatever the heap holds; and when
    the buffers are as the contract says, nothing is raised. *)
Theorem merge_reads_in_bounds (x_len : Z) (x x_inds : positive) (y_len : Z)
    (y y_inds : positive) (out_len : Z) (out out_inds : positive)
    (i j : Z) (m : machine) :
  0 ≤ i ≤ x_len → 0 ≤ j ≤ y_len → out_len ≤ (x_len - i) + (y_len - j) →
  (∃ evs,
     log (merge x_len x x_inds y_len y y_inds out_len out out_inds i j m).2 =
       log m ++ evs ∧
     Forall (load_in_bounds x_len x x_inds y_len y y_inds) evs) ∧
  (contract x_len x x_inds y_len y y_inds out_len out out_inds i j m →
   (merge x_len x x_inds y_len y y_inds out_len out out_inds i j m).1 =
     Ok ()).
Proof.
  intros Hi Hj Hlen. split.
  - by apply merge_loads.
  - intros pre. destruct (merge_run _ _ _ _ _ _ _ _ _ _ _ _ pre)
      as (m' & Hrun & _).
    by rewrite Hrun.
Qed.

(** C7 (frame): for every call, on every heap, the routine changes nothing
    but cells [0 .. out_len-1] of [out] and [out_inds]: buffers other than
    these two are untouched (so [x], [x_inds], [y] and [y_inds] are, being
    other objects), no buffer changes length, cells at positions from
    [out_len] on keep their contents, every store in the log is into [out]
    or [out_inds] at a position in [0, out_len), and with [out_len = 0] the
    call returns at once with the state as it was. *)
Theorem merge_frame (x_len : Z) (x x_inds : positive) (y_len : Z)
    (y y_inds : positive) (out_len : Z) (out out_inds : positive)
    (i j : Z) (m : machine) :
  let m' :=
    (merge x_len x x_inds y_len y y_inds out_len out out_inds i j m).2 in
  (∀ b, b ≠ out → b ≠ out_inds → mem m' !! b = mem m !! b) ∧
  (∀ b, b ∈ [x; x_inds; y; y_inds] → b ≠ out → b ≠ out_inds →
        buf m' b = buf m b) ∧
  (∀ b, length (buf m' b) = length (buf m b)) ∧
  (∀ b p, out_len ≤ p → item (buf m' b) p = item (buf m b) p) ∧
  (∃ evs, log m' = log m ++ evs ∧
          Forall (store_in_frame out_len out out_inds) evs) ∧
  (out_len = 0 →
   merge x_len x x_inds y_len y y_inds out_len out out_inds i j m =
     (Ok (), m)).
Proof.
  intros m'.
  destruct (merge_writes_only out_len out out_inds x_len x x_inds y_len
              y y_inds i j m) as (Hmem & Hlen & Hitem & Hlog).
  fold m' in Hmem, Hlen, Hitem, Hlog.
  split; [done|]. split.
  { intros b _ ? ?. unfold buf. by rewrite Hmem. }
  split; [done|]. split; [done|]. split; [done|].
  by intros ->.
Qed.

(** C10 (short-circuit test): the test of line 20 is evaluated left to
    right.  When X is exhausted ([i = x_len]) and Y is not, it is true
    without any subscript being evaluated; when Y is exhausted
    ([j >= y_len]) it is false without any subscript being evaluated.  In
    both cases the state, log included, is what it was, whatever the
    buffers hold. *)
Theorem guard_short_circuit (x_len : Z) (x : positive) (y_len : Z)
    (y : positive) (i j : Z) (m : machine) :
  (i = x_len → j < y_len → guard x_len x y_len y i j m = (Ok true, m)) ∧
  (y_len ≤ j → guard x_len x y_len y i j m = (Ok false, m)).
Proof.
  unfold guard. split.
  - intros Hi Hj. rewrite bool_decide_eq_true_2 by done.
    by rewrite bool_decide_eq_true_2 by done.
  - intros Hj. by rewrite bool_decide_eq_false_2 by lia.
Qed.

(** ** The spec's scenarios *)

(** C2 (concrete scenario): on [x = [1,3,5]], [x_inds = [10,11,12]],
    [y = [2,3,6]], [y_inds = [20,21,22]], [i = j = 0], [out_len = 6] the
    call returns with [out = [1,2,3,3,5,6]] and
    [out_inds = [10,20,11,21,12,22]]. *)
Theorem merge_scenario :
  let r := merge 3 1 2 3 3 4 6 5 6 0 0 scenario in
  r.1 = Ok () ∧
  buf r.2 5 = [1; 2; 3; 3; 5; 6] ∧
  buf r.2 6 = [10; 20; 11; 21; 12; 22].
Proof. vm_compute. done. Qed.

(** C8 (chunked merge): on the same inputs, a call with [i = j = 0] and
    [out_len = 2] leaves [1,2] and [10,20] at the front of the output
    buffers; a second call with [i = j = 1] and [out_len = 4], on the same
    or on fresh output buffers, leaves [3,3,5,6] and [11,21,12,22]; the two
    chunks, one after the other, are the output of the single call with
    [out_len = 6].  The cursors [(1, 1)] of the second call are those the
    first call ended with. *)
Theorem merge_chunked :
  let first := merge 3 1 2 3 3 4 2 5 6 0 0 scenario in
  let second := merge 3 1 2 3 3 4 4 5 6 1 1 first.2 in
  let fresh := merge 3 1 2 3 3 4 4 5 6 1 1 scenario in
  let whole := merge 3 1 2 3 3 4 6 5 6 0 0 scenario in
  first.1 = Ok () ∧ second.1 = Ok () ∧ fresh.1 = Ok () ∧ whole.1 = Ok () ∧
  cursors_after 3 1 2 3 3 4 5 6 0 0 scenario 2 = Some (1, 1) ∧
  slice (buf first.2 5) 0 2 = [1; 2] ∧
  slice (buf first.2 6) 0 2 = [10; 20] ∧
  slice (buf second.2 5) 0 4 = [3; 3; 5; 6] ∧
  slice (buf second.2 6) 0 4 = [11; 21; 12; 22] ∧
  slice (buf fresh.2 5) 0 4 = [3; 3; 5; 6] ∧
  slice (buf fresh.2 6) 0 4 = [11; 21; 12; 22] ∧
  slice (buf first.2 5) 0 2 ++ slice (buf second.2 5) 0 4 = buf whole.2 5 ∧
  slice (buf first.2 6) 0 2 ++ slice (buf second.2 6) 0 4 = buf whole.2 6.
Proof. vm_compute. repeat split. Qed.

(** ** The statements at work on the scenario *)

Lemma scenario_contract (out_len i j : Z) :
  0 ≤ i ≤ 3 → 0 ≤ j ≤ 3 → 0 ≤ out_len ≤ (3 - i) + (3 - j) →
  contract 3 1 2 3 3 4 out_len 5 6 i j scenario.
Proof.
  intros Hi Hj Hn.
  assert (length (buf scenario 1) = 3%nat) as L1 by (vm_compute; reflexivity).
  assert (length (buf scenario 2) = 3%nat) as L2 by (vm_compute; reflexivity).
  assert (length (buf scenario 3) = 3%nat) as L3 by (vm_compute; reflexivity).
  assert (length (buf scenario 4) = 3%nat) as L4 by (vm_compute; reflexivity).
  assert (length (buf scenario 5) = 6%nat) as L5 by (vm_compute; reflexivity).
  assert (length (buf scenario 6) = 6%nat) as L6 by (vm_compute; reflexivity).
  split; rewrite ?L1, ?L2, ?L3, ?L4, ?L5, ?L6; try lia; try done.
  - rewrite !not_elem_of_cons. repeat split; try done. apply not_elem_of_nil.
  - rewrite !not_elem_of_cons. repeat split; try done. apply not_elem_of_nil.
Qed.

Lemma scenario_x_ascending : Sorted Z.le (slice (buf scenario 1) 0 3).
Proof.
  assert (slice (buf scenario 1) 0 3 = [1; 3; 5]) as ->
    by (vm_compute; reflexivity).
  repeat constructor; lia.
Qed.

Lemma scenario_y_ascending : Sorted Z.le (slice (buf scenario 3) 0 3).
Proof.
  assert (slice (buf scenario 3) 0 3 = [2; 3; 6]) as ->
    by (vm_compute; reflexivity).
  repeat constructor; lia.
Qed.

Lemma merge_sorted_prefix_witness :
  contract 3 1 2 3 3 4 6 5 6 0 0 scenario ∧
  Sorted Z.le (slice (buf scenario 1) 0 3) ∧
  Sorted Z.le (slice (buf scenario 3) 0 3) ∧
  ∃ m', merge 3 1 2 3 3 4 6 5 6 0 0 scenario = (Ok (), m') ∧
    Sorted Z.le (slice (buf m' 5) 0 6) ∧
    slice (buf m' 5) 0 6 =
      take (Z.to_nat 6)
        (merge_sort Z.le
           (slice (buf scenario 1) 0 3 ++ slice (buf scenario 3) 0 3)).
Proof.
  assert (Hc : contract 3 1 2 3 3 4 6 5 6 0 0 scenario)
    by (apply scenario_contract; lia).
  split; [exact Hc|].
  split; [exact scenario_x_ascending|].
  split; [exact scenario_y_ascending|].
  exact (merge_sorted_prefix 3 1 2 3 3 4 6 5 6 0 0 scenario Hc
           scenario_x_ascending scenario_y_ascending).
Defined.

Lemma merge_stable_witness :
  contract 3 1 2 3 3 4 6 5 6 0 0 scenario ∧
  Sorted Z.le (slice (buf scenario 1) 0 3) ∧
  ∃ m', merge 3 1 2 3 3 4 6 5 6 0 0 scenario = (Ok (), m') ∧
    (* the tie [x[1] = y[1] = 3] at iteration 2: X goes first *)
    cursors_after 3 1 2 3 3 4 5 6 0 0 scenario 2 = Some (1, 1) ∧
    cursors_after 3 1 2 3 3 4 5 6 0 0 scenario 3 = Some (2, 1) ∧
    item (buf m' 5) 2 = Some 3 ∧
    item (buf m' 6) 2 = Some 11 ∧
    (* and the 3 of Y, stored by iteration 3, comes after it *)
    (item (buf m' 5) 3 = Some 3 → 2 < 3).
Proof.
  assert (Hc : contract 3 1 2 3 3 4 6 5 6 0 0 scenario)
    by (apply scenario_contract; lia).
  split; [exact Hc|]. split; [exact scenario_x_ascending|].
  destruct (merge_stable 3 1 2 3 3 4 6 5 6 0 0 scenario Hc
              scenario_x_ascending) as (m' & Hrun & Htie & Horder).
  exists m'. split; [exact Hrun|].
  destruct (Htie 2 1 1 3) as (Hnext & Hv & Hw);
    [lia | vm_compute; reflexivity | lia | lia
    | vm_compute; reflexivity | vm_compute; reflexivity |].
  split; [vm_compute; reflexivity|]. split; [exact Hnext|].
  split; [exact Hv|]. split; [exact Hw|].
  intros Hy. apply (Horder 2 3 1 1 2 1 3); try lia; try done;
    vm_compute; reflexivity.
Defined.

Lemma merge_index_pairing_witness :
  contract 3 1 2 3 3 4 6 5 6 0 0 scenario ∧
  ∃ m', merge 3 1 2 3 3 4 6 5 6 0 0 scenario = (Ok (), m') ∧
    ∀ k, 0 ≤ k < 6 →
      ∃ ik jk v w,
        cursors_after 3 1 2 3 3 4 5 6 0 0 scenario k = Some (ik, jk) ∧
        item (buf m' 5) k = Some v ∧
        item (buf m' 6) k = Some w ∧
        ((cursors_after 3 1 2 3 3 4 5 6 0 0 scenario (k + 1) =
            Some (ik + 1, jk) ∧ 0 ≤ ik < 3 ∧
          item (buf scenario 1) ik = Some v ∧
          item (buf scenario 2) ik = Some w)
         ∨
         (cursors_after 3 1 2 3 3 4 5 6 0 0 scenario (k + 1) =
            Some (ik, jk + 1) ∧ 0 ≤ jk < 3 ∧
          item (buf scenario 3) jk = Some v ∧
          item (buf scenario 4) jk = Some w)).
Proof.
  assert (Hc : contract 3 1 2 3 3 4 6 5 6 0 0 scenario)
    by (apply scenario_contract; lia).
  split; [exact Hc|].
  exact (merge_index_pairing 3 1 2 3 3 4 6 5 6 0 0 scenario Hc).
Defined.

Lemma merge_reads_in_bounds_witness :
  0 ≤ 0 ≤ 3 ∧ 0 ≤ 0 ≤ 3 ∧ 6 ≤ (3 - 0) + (3 - 0) ∧
  contract 3 1 2 3 3 4 6 5 6 0 0 scenario ∧
  (∃ evs,
     log (merge 3 1 2 3 3 4 6 5 6 0 0 scenario).2 = log scenario ++ evs ∧
     Forall (load_in_bounds 3 1 2 3 3 4) evs) ∧
  (merge 3 1 2 3 3 4 6 5 6 0 0 scenario).1 = Ok ().
Proof.
  assert (Hc : contract 3 1 2 3 3 4 6 5 6 0 0 scenario)
    by (apply scenario_contract; lia).
  split; [lia|]. split; [lia|]. split; [lia|]. split; [exact Hc|].
  destruct (merge_reads_in_bounds 3 1 2 3 3 4 6 5 6 0 0 scenario)
    as [Hloads Hok]; [lia | lia | lia |].
  split; [exact Hloads | exact (Hok Hc)].
Defined.

Lemma merge_exhaustion_witness :
  (* X exhausted from the start *)
  (contract 3 1 2 3 3 4 3 5 6 3 0 scenario ∧ 3 - 3 = 0 ∧
   ∃ m', merge 3 1 2 3 3 4 3 5 6 3 0 scenario = (Ok (), m') ∧
     slice (buf m' 5) 0 3 = slice (buf scenario 3) 0 (0 + 3) ∧
     slice (buf m' 6) 0 3 = slice (buf scenario 4) 0 (0 + 3)) ∧
  (* Y exhausted from the start *)
  (contract 3 1 2 3 3 4 2 5 6 1 3 scenario ∧ 3 - 3 = 0 ∧
   ∃ m', merge 3 1 2 3 3 4 2 5 6 1 3 scenario = (Ok (), m') ∧
     slice (buf m' 5) 0 2 = slice (buf scenario 1) 1 (1 + 2) ∧
     slice (buf m' 6) 0 2 = slice (buf scenario 2) 1 (1 + 2)).
Proof.
  assert (Hx : contract 3 1 2 3 3 4 3 5 6 3 0 scenario)
    by (apply scenario_contract; lia).
  assert (Hy : contract 3 1 2 3 3 4 2 5 6 1 3 scenario)
    by (apply scenario_contract; lia).
  split.
  - split; [exact Hx|]. split; [lia|].
    destruct (merge_exhaustion 3 1 2 3 3 4 3 5 6 3 0 scenario Hx)
      as (m' & Hrun & Hxe & _).
    exists m'. split; [exact Hrun|]. apply Hxe. lia.
  - split; [exact Hy|]. split; [lia|].
    destruct (merge_exhaustion 3 1 2 3 3 4 2 5 6 1 3 scenario Hy)
      as (m' & Hrun & _ & Hye).
    exists m'. split; [exact Hrun|]. apply Hye. lia.
Defined.

Lemma merge_frame_witness :
  let m' := (merge 3 1 2 3 3 4 2 5 6 0 0 scenario).2 in
  (* the input buffers, which are not the output buffers *)
  buf m' 1 = buf scenario 1 ∧ buf m' 2 = buf scenario 2 ∧
  buf m' 3 = buf scenario 3 ∧ buf m' 4 = buf scenario 4 ∧
  (* the sentinel past the two cells written *)
  item (buf m' 5) 2 = item (buf scenario 5) 2 ∧
  item (buf m' 6) 5 = item (buf scenario 6) 5 ∧
  (* nothing to produce, nothing done *)
  merge 3 1 2 3 3 4 0 5 6 0 0 scenario = (Ok (), scenario).
Proof.
  intros m'.
  destruct (merge_frame 3 1 2 3 3 4 2 5 6 0 0 scenario)
    as (_ & Hin & _ & Hitem & _).
  destruct (merge_frame 3 1 2 3 3 4 0 5 6 0 0 scenario)
    as (_ & _ & _ & _ & _ & Hzero).
  fold m' in Hin, Hitem.
  assert (Hmem : ∀ b : positive,
            (b = 1 ∨ b = 2 ∨ b = 3 ∨ b = 4)%positive →
            b ∈ [1; 2; 3; 4]%positive ∧ b ≠ 5%positive ∧ b ≠ 6%positive).
  { intros b Hb. rewrite !elem_of_cons.
    split; [tauto|]. split; intros ->; repeat destruct Hb as [Hb|Hb]; done. }
  split; [apply Hin; apply Hmem; tauto|].
  split; [apply Hin; apply Hmem; tauto|].
  split; [apply Hin; apply Hmem; tauto|].
  split; [apply Hin; apply Hmem; tauto|].
  split; [apply Hitem; lia|].
  split; [apply Hitem; lia|].
  apply Hzero. reflexivity.
Defined.

Lemma merge_iterations_witness :
  contract 3 1 2 3 3 4 4 5 6 0 0 scenario ∧
  ∃ iF jF m' evs,
    merge_loop 3 1 2 3 3 4 4 5 6 0 0 scenario = (Ok (iF, jF), m') ∧
    merge 3 1 2 3 3 4 4 5 6 0 0 scenario = (Ok (), m') ∧
    log m' = log scenario ++ evs ∧
    stores_to 5 evs = seqZ 0 4 ∧
    stores_to 6 evs = seqZ 0 4 ∧
    0 ≤ iF ∧ 0 ≤ jF ∧ (iF - 0) + (jF - 0) = 4 ∧
    ∀ k, 0 ≤ k < 4 →
      ∃ ik jk,
        cursors_after 3 1 2 3 3 4 5 6 0 0 scenario k = Some (ik, jk) ∧
        0 ≤ ik ∧ 0 ≤ jk ∧
        (cursors_after 3 1 2 3 3 4 5 6 0 0 scenario (k + 1) =
           Some (ik + 1, jk) ∨
         cursors_after 3 1 2 3 3 4 5 6 0 0 scenario (k + 1) =
           Some (ik, jk + 1)).
Proof.
  assert (Hc : contract 3 1 2 3 3 4 4 5 6 0 0 scenario)
    by (apply scenario_contract; lia).
  split; [exact Hc|].
  exact (merge_iterations 3 1 2 3 3 4 4 5 6 0 0 scenario Hc).
Defined.

Lemma guard_short_circuit_witness :
  (* [x] holds exactly three elements: [x[3]] would raise *)
  length (buf scenario 1) = 3%nat ∧
  guard 3 1 3 3 3 0 scenario = (Ok true, scenario) ∧
  guard 3 1 3 3 0 3 scenario = (Ok false, scenario).
Proof.
  split; [vm_compute; reflexivity|].
  destruct (guard_short_circuit 3 1 3 3 3 0 scenario) as [Hx _].
  destruct (guard_short_circuit 3 1 3 3 0 3 scenario) as [_ Hy].
  split; [apply Hx; [reflexivity | lia] | apply Hy; lia].
Defined.

(** ** Resuming a merge *)

Lemma contract_shorter (x_len : Z) (x x_inds : positive) (y_len : Z)
    (y y_inds : positive) (out_len n : Z) (out out_inds : positive)
    (i j : Z) (m : machine) :
  contract x_len x x_inds y_len y y_inds out_len out out_inds i j m →
  0 ≤ n ≤ out_len →
  contract x_len x x_inds y_len y y_inds n out out_inds i j m.
Proof. intros [] Hn. split; (done || lia). Qed.

Section resume.
Variables (x_len : Z) (x x_inds : positive) (y_len : Z)
          (y y_inds : positive) (i j : Z) (m m1 : machine) (n1 : nat).
Hypothesis same_x : buf m1 x = buf m x.
Hypothesis same_x_inds : buf m1 x_inds = buf m x_inds.
Hypothesis same_y : buf m1 y = buf m y.
Hypothesis same_y_inds : buf m1 y_inds = buf m y_inds.

Local Abbreviation cur0 := (cur x_len x y_len y i j m).
Local Abbreviation cur1 :=
  (cur x_len x y_len y (cur0 n1).1 (cur0 n1).2 m1).

Lemma cur_resume (k : nat) : cur1 k = cur0 (n1 + k).
Proof using same_x same_y.
  induction k as [|k IH].
  - rewrite Nat.add_0_r. cbn [cur]. by rewrite <- surjective_pairing.
  - rewrite Nat.add_succ_r. cbn [cur]. rewrite IH.
    unfold next, takes_y. by rewrite same_x, same_y.
Qed.

Lemma emitted_resume (n2 : nat) :
  emitted x_len x x_inds y_len y y_inds i j m (n1 + n2) =
    emitted x_len x x_inds y_len y y_inds i j m n1 ++
    emitted x_len x x_inds y_len y y_inds (cur0 n1).1 (cur0 n1).2 m1 n2.
Proof using same_x same_x_inds same_y same_y_inds.
  induction n2 as [|n2 IH].
  - rewrite Nat.add_0_r. cbn. by rewrite app_nil_r.
  - rewrite Nat.add_succ_r, !emitted_S, IH, cur_resume, <- (assoc (++)).
    do 3 f_equal. unfold emit, takes_y.
    by rewrite same_x, same_x_inds, same_y, same_y_inds.
Qed.
End resume.

(** X3 (chunked merge composes): let a call for [n1 + n2] elements be
    within the contract, and let [(i1, j1)] be the cursors after its first
    [n1] iterations.  Then the call for [n1] elements, followed on the
    state it leaves by a call for [n2] elements that starts at [(i1, j1)],
    both return, and their outputs [out[0:n1]] and [out[0:n2]], one after
    the other, are the output [out[0:n1+n2]] of the single call; likewise
    for [out_inds]. *)
Theorem merge_chunks_compose (x_len : Z) (x x_inds : positive) (y_len : Z)
    (y y_inds : positive) (n1 n2 : Z) (out out_inds : positive)
    (i j i1 j1 : Z) (m : machine) :
  contract x_len x x_inds y_len y y_inds (n1 + n2) out out_inds i j m →
  0 ≤ n1 → 0 ≤ n2 →
  cursors_after x_len x x_inds y_len y y_inds out out_inds i j m n1 =
    Some (i1, j1) →
  ∃ m1 m2 mW,
    merge x_len x x_inds y_len y y_inds n1 out out_inds i j m = (Ok (), m1) ∧
    merge x_len x x_inds y_len y y_inds n2 out out_inds i1 j1 m1 =
      (Ok (), m2) ∧
    merge x_len x x_inds y_len y y_inds (n1 + n2) out out_inds i j m =
      (Ok (), mW) ∧
    slice (buf mW out) 0 (n1 + n2) =
      slice (buf m1 out) 0 n1 ++ slice (buf m2 out) 0 n2 ∧
    slice (buf mW out_inds) 0 (n1 + n2) =
      slice (buf m1 out_inds) 0 n1 ++ slice (buf m2 out_inds) 0 n2.
Proof.
  intros pre Hn1 Hn2 Hc.
  assert (pre1 := contract_shorter _ _ _ _ _ _ _ n1 _ _ _ _ _ pre
                    ltac:(lia)).
  rewrite (cursors_after_cur _ _ _ _ _ _ _ _ _ _ _ _ pre) in Hc by lia.
  injection Hc as Hc.
  destruct (merge_run _ _ _ _ _ _ _ _ _ _ _ _ pre1) as (m1 & Hrun1 & Hr1).
  destruct (merge_run _ _ _ _ _ _ _ _ _ _ _ _ pre) as (mW & HrunW & HrW).
  destruct (cur_range _ _ _ _ _ _ _ _ _ _ _ _ pre (Z.to_nat n1))
    as (Hi1 & Hj1 & Hsum); [lia|].
  rewrite Hc in Hi1, Hj1, Hsum. cbn [fst snd] in *.
  destruct (sep_inputs _ _ _ _ _ _ _ _ _ _ _ _ pre)
    as ([? ?] & [? ?] & [? ?] & [? ?]).
  assert (Hsame : ∀ b, b ≠ out → b ≠ out_inds → buf m1 b = buf m b).
  { intros b ? ?. unfold buf. by rewrite (r_frame _ _ _ _ _ _ _ _ _ _ _ _ _ Hr1). }
  assert (Hlo : length (buf m1 out) = length (buf m out)).
  { rewrite (r_out _ _ _ _ _ _ _ _ _ _ _ _ _ Hr1).
    rewrite length_app, length_fmap, length_emitted, length_drop.
    destruct pre. lia. }
  assert (Hloi : length (buf m1 out_inds) = length (buf m out_inds)).
  { rewrite (r_out_inds _ _ _ _ _ _ _ _ _ _ _ _ _ Hr1).
    rewrite length_app, length_fmap, length_emitted, length_drop.
    destruct pre. lia. }
  assert (pre2 : contract x_len x x_inds y_len y y_inds n2 out out_inds
                   i1 j1 m1).
  { destruct pre. split; rewrite ?Hsame, ?Hlo, ?Hloi by done; (done || lia). }
  destruct (merge_run _ _ _ _ _ _ _ _ _ _ _ _ pre2) as (m2 & Hrun2 & Hr2).
  exists m1, m2, mW. split; [done|]. split; [done|]. split; [done|].
  destruct (reached_prefix _ _ _ _ _ _ _ _ _ _ _ _ _ Hr1) as [A1 B1].
  destruct (reached_prefix _ _ _ _ _ _ _ _ _ _ _ _ _ Hr2) as [A2 B2].
  destruct (reached_prefix _ _ _ _ _ _ _ _ _ _ _ _ _ HrW) as [AW BW].
  rewrite Z2Nat.id in A1, B1, A2, B2, AW, BW by lia.
  rewrite A1, B1, A2, B2, AW, BW.
  replace (Z.to_nat (n1 + n2)) with (Z.to_nat n1 + Z.to_nat n2)%nat by lia.
  rewrite (emitted_resume x_len x x_inds y_len y y_inds i j m m1
             (Z.to_nat n1)) by (by apply Hsame).
  rewrite Hc. cbn [fst snd]. by rewrite !fmap_app.
Qed.

(** ** Calls outside the contract *)

Lemma getitem_out_of_range (b : positive) (p : Z) (l : list Z)
    (m : machine) :
  mem m !! b = Some l → Z.of_nat (length l) ≤ p →
  getitem b p m = (Raise IndexError, record (Load b p) m).
Proof.
  intros Hb Hp. unfold getitem. cbn. rewrite Hb. unfold py_index.
  rewrite (bool_decide_eq_false_2 (p < 0)) by lia.
  by rewrite bool_decide_eq_false_2 by lia.
Qed.

Lemma setitem_out_of_range (b : positive) (p v : Z) (l : list Z)
    (m : machine) :
  mem m !! b = Some l → Z.of_nat (length l) ≤ p →
  setitem b p v m = (Raise IndexError, record (Store b p) m).
Proof.
  intros Hb Hp. unfold setitem. cbn. rewrite Hb. unfold py_index.
  rewrite (bool_decide_eq_false_2 (p < 0)) by lia.
  by rewrite bool_decide_eq_false_2 by lia.
Qed.

(** The loop for [n + extra] positions: the first [n] iterations, then
    iteration [n], then the rest. *)
Lemma merge_loop_split (x_len : Z) (x x_inds : positive) (y_len : Z)
    (y y_inds : positive) (n out_len : Z) (out out_inds : positive)
    (i j : Z) (m : machine) :
  0 ≤ n < out_len →
  merge_loop x_len x x_inds y_len y y_inds out_len out out_inds i j m =
    bind (merge_loop x_len x x_inds y_len y y_inds n out out_inds i j)
      (λ c, bind (body x_len x x_inds y_len y y_inds out out_inds n c)
              (for_each (seqZ (n + 1) (out_len - n - 1))
                 (body x_len x x_inds y_len y y_inds out out_inds))) m.
Proof.
  intros Hn. unfold merge_loop.
  replace out_len with (n + (out_len - n)) at 1 by lia.
  rewrite seqZ_app, for_each_app by lia.
  unfold bind.
  destruct (for_each (seqZ 0 n) _ _ m) as [[c|e] m']; [|done].
  rewrite Z.add_0_l, seqZ_cons by lia. cbn [for_each]. unfold bind.
  unfold Z.succ, Z.pred.
  by replace (out_len - n + -1) with (out_len - n - 1) by lia.
Qed.

Lemma body_exhausted_raises (x_len : Z) (x x_inds : positive) (y_len : Z)
    (y y_inds : positive) (out out_inds : positive) (k : Z)
    (l : list Z) (m : machine) :
  mem m !! x = Some l → Z.of_nat (length l) = x_len →
  body x_len x x_inds y_len y y_inds out out_inds k (x_len, y_len) m =
    (Raise IndexError, record (Load x x_len) m).
Proof.
  intros Hx Hlen. unfold body, guard.
  rewrite (bool_decide_eq_false_2 (y_len < y_len)) by lia.
  unfold bind at 1. cbn [ret]. unfold bind at 1.
  by rewrite (getitem_out_of_range x x_len l m) by (done || lia).
Qed.

(** X4 (asking for more than remains): let the buffer [x] hold exactly
    [x_len] elements, let the call for all the remaining
    [(x_len - i) + (y_len - j)] elements be within the contract, and ask for
    more.  The routine then performs that complete merge, and in the next
    iteration, both runs exhausted, it takes the X branch, evaluates
    [x[x_len]] and raises [IndexError]; the heap is the one the complete
    merge leaves. *)
Theorem merge_overrun_raises (x_len : Z) (x x_inds : positive) (y_len : Z)
    (y y_inds : positive) (out_len : Z) (out out_inds : positive)
    (i j : Z) (m : machine) :
  contract x_len x x_inds y_len y y_inds ((x_len - i) + (y_len - j))
    out out_inds i j m →
  is_Some (mem m !! x) → Z.of_nat (length (buf m x)) = x_len →
  (x_len - i) + (y_len - j) < out_len →
  ∃ mR,
    merge x_len x x_inds y_len y y_inds ((x_len - i) + (y_len - j))
      out out_inds i j m = (Ok (), mR) ∧
    merge x_len x x_inds y_len y y_inds out_len out out_inds i j m =
      (Raise IndexError, record (Load x x_len) mR).
Proof.
  intros pre [lx Hlx] Hfit Hmore.
  set (R := (x_len - i) + (y_len - j)) in *.
  assert (0 ≤ R) as HR by (destruct pre; lia).
  destruct (loop_sim _ _ _ _ _ _ _ _ _ _ _ _ pre (Z.to_nat R))
    as (mR & Hloop & Hr); [lia|].
  rewrite Z2Nat.id in Hloop by done.
  destruct (cur_range _ _ _ _ _ _ _ _ _ _ _ _ pre (Z.to_nat R))
    as (Hi & Hj & Hsum); [lia|].
  assert (Hc : cur x_len x y_len y i j m (Z.to_nat R) = (x_len, y_len)).
  { rewrite (surjective_pairing (cur _ _ _ _ _ _ _ _)). f_equal; lia. }
  rewrite Hc in Hloop.
  exists mR. split; [unfold merge, bind; by rewrite Hloop|].
  destruct (sep_inputs _ _ _ _ _ _ _ _ _ _ _ _ pre) as ([? ?] & _).
  assert (HxR : mem mR !! x = Some lx).
  { by rewrite (r_frame _ _ _ _ _ _ _ _ _ _ _ _ _ Hr). }
  assert (Hlen : Z.of_nat (length lx) = x_len).
  { unfold buf in Hfit. by rewrite Hlx in Hfit. }
  unfold merge. unfold bind at 1.
  rewrite (merge_loop_split _ _ _ _ _ _ R) by lia.
  unfold bind at 1. rewrite Hloop. unfold bind at 1.
  by rewrite (body_exhausted_raises _ _ _ _ _ _ _ _ _ lx mR).
Qed.

(** X5 (no check against [x_len] once Y is exhausted): when the Y cursor
    is at or past [y_len], the declared length of X is never consulted: the
    call does the same, to the last log entry, whatever [x_len] is.  So it
    goes on copying from [x] past [x_len] as long as the buffer has
    elements. *)
Theorem merge_ignores_x_len (x_len x_len' : Z) (x x_inds : positive)
    (y_len : Z) (y y_inds : positive) (out_len : Z)
    (out out_inds : positive) (i j : Z) (m : machine) :
  y_len ≤ j →
  merge x_len x x_inds y_len y y_inds out_len out out_inds i j m =
  merge x_len' x x_inds y_len y y_inds out_len out out_inds i j m.
Proof.
  intros Hj. unfold merge, merge_loop, bind.
  enough (H : ∀ ks i' m',
            for_each ks (body x_len x x_inds y_len y y_inds out out_inds)
              (i', j) m' =
            for_each ks (body x_len' x x_inds y_len y y_inds out out_inds)
              (i', j) m') by (by rewrite H).
  assert (Hb : ∀ k i' m',
            body x_len x x_inds y_len y y_inds out out_inds k (i', j) m' =
            body x_len' x x_inds y_len y y_inds out out_inds k (i', j) m').
  { intros k i' m'. unfold body, guard.
    by rewrite !(bool_decide_eq_false_2 (j < y_len)) by lia. }
  assert (Hc : ∀ k i' m' c m'',
            body x_len' x x_inds y_len y y_inds out out_inds k (i', j) m' =
              (Ok c, m'') → c.2 = j).
  { intros k i' m' c m''. unfold body, guard.
    rewrite (bool_decide_eq_false_2 (j < y_len)) by lia.
    unfold bind, ret.
    destruct (getitem x i' m') as [[v|e] m1]; [|done].
    destruct (setitem out k v m1) as [[[]|e] m2]; [|done].
    destruct (getitem x_inds i' m2) as [[w|e] m3]; [|done].
    destruct (setitem out_inds k w m3) as [[[]|e] m4]; [|done].
    by intros [= <- _]. }
  induction ks as [|k ks IH]; intros i' m'; [done|].
  cbn [for_each]. unfold bind. rewrite Hb.
  destruct (body x_len' x x_inds y_len y y_inds out out_inds k (i', j) m')
    as [[[ci cj]|e] m''] eqn:E; [|done].
  apply Hc in E. cbn in E. subst cj. apply IH.
Qed.

Lemma takes_y_true (x_len : Z) (x : positive) (y_len : Z) (y : positive)
    (m : machine) (i' j' : Z) :
  takes_y x_len x y_len y m i' j' = true → j' < y_len.
Proof.
  unfold takes_y. intros [H _]%andb_prop. by apply bool_decide_eq_true_1 in H.
Qed.

Lemma takes_y_false (x_len : Z) (x : positive) (y_len : Z) (y : positive)
    (m : machine) (i' j' : Z) :
  i' ≤ x_len → i' < x_len ∨ j' < y_len →
  takes_y x_len x y_len y m i' j' = false → i' < x_len.
Proof.
  unfold takes_y. intros Hi Hrem H.
  apply andb_false_iff in H as [H|H].
  - apply bool_decide_eq_false_1 in H. lia.
  - apply orb_false_iff in H as [H _].
    apply bool_decide_eq_false_1 in H. lia.
Qed.

(** An iteration at an output position the buffer [out] does not have:
    the test and the load of the branch go through, the store raises. *)
Lemma body_short_out (x_len : Z) (x x_inds : positive) (y_len : Z)
    (y y_inds : positive) (n : Z) (out out_inds : positive)
    (i j : Z) (m : machine) (k i' j' : Z) (lo : list Z) (m' : machine) :
  contract x_len x x_inds y_len y y_inds n out out_inds i j m →
  framed out out_inds m m' →
  0 ≤ i' ≤ x_len → 0 ≤ j' ≤ y_len → i' < x_len ∨ j' < y_len →
  mem m' !! out = Some lo → Z.of_nat (length lo) ≤ k →
  ∃ m'', body x_len x x_inds y_len y y_inds out out_inds k (i', j') m' =
           (Raise IndexError, m'') ∧ mem m'' = mem m'.
Proof.
  intros pre Hf Hi Hj Hrem Hout Hk.
  destruct (sep_inputs _ _ _ _ _ _ _ _ _ _ _ _ pre)
    as ([? ?] & _ & [? ?] & _).
  unfold body, bind at 1.
  rewrite (guard_spec _ _ _ _ _ _ _ _ _ _ _ _ pre i' j' m' Hf Hi Hj).
  set (mg := {| mem := mem m'; log := _ |}).
  assert (Hfg : framed out out_inds m mg) by (intros b ? ?; by apply Hf).
  destruct (takes_y x_len x y_len y m i' j') eqn:Ht.
  - apply takes_y_true in Ht.
    destruct (load_input out out_inds m y j' mg) as (v & _ & Hg);
      [done.. | destruct pre; lia |].
    unfold bind at 1. rewrite Hg. unfold bind at 1.
    rewrite (setitem_out_of_range out k v lo) by done.
    eexists. split; [reflexivity|done].
  - apply takes_y_false in Ht; [|lia|done].
    destruct (load_input out out_inds m x i' mg) as (v & _ & Hg);
      [done.. | destruct pre; lia |].
    unfold bind at 1. rewrite Hg. unfold bind at 1.
    rewrite (setitem_out_of_range out k v lo) by done.
    eexists. split; [reflexivity|done].
Qed.

(** X6 (output buffer too short): let [out] hold exactly [L] cells, fewer
    than the [out_len] asked for, with [out_len] elements remaining in the
    runs and the call for [L] elements within the contract.  The routine
    then does what the call for [L] elements does and raises [IndexError]
    at the store [out[L] = ...]: the heap is the one the call for [L]
    elements leaves, with the first [L] cells of both output buffers
    written. *)
Theorem merge_short_out_raises (x_len : Z) (x x_inds : positive)
    (y_len : Z) (y y_inds : positive) (L out_len : Z)
    (out out_inds : positive) (i j : Z) (m : machine) :
  contract x_len x x_inds y_len y y_inds L out out_inds i j m →
  is_Some (mem m !! out) → Z.of_nat (length (buf m out)) = L →
  L < out_len → out_len ≤ (x_len - i) + (y_len - j) →
  ∃ mL m',
    merge x_len x x_inds y_len y y_inds L out out_inds i j m = (Ok (), mL) ∧
    merge x_len x x_inds y_len y y_inds out_len out out_inds i j m =
      (Raise IndexError, m') ∧
    mem m' = mem mL.
Proof.
  intros pre [lo0 Hlo0] Hfit Hless Hrem.
  assert (0 ≤ L) as HL by (destruct pre; lia).
  destruct (loop_sim _ _ _ _ _ _ _ _ _ _ _ _ pre (Z.to_nat L))
    as (mL & Hloop & Hr); [lia|].
  rewrite Z2Nat.id in Hloop by done.
  destruct (cur_range _ _ _ _ _ _ _ _ _ _ _ _ pre (Z.to_nat L))
    as (Hi & Hj & Hsum); [lia|].
  assert (0 ≤ i ∧ 0 ≤ j) as [? ?] by (destruct pre; lia).
  assert (Hlen : length (buf mL out) = length (buf m out)).
  { rewrite (r_out _ _ _ _ _ _ _ _ _ _ _ _ _ Hr).
    rewrite length_app, length_fmap, length_emitted, length_drop. lia. }
  assert (Hbound : mem mL !! out = Some (buf mL out)).
  { destruct (decide (L = 0)) as [->|].
    - assert (mL = m) as ->.
      { unfold merge_loop in Hloop.
        change (seqZ 0 0) with (@nil Z) in Hloop. cbn in Hloop.
        by injection Hloop. }
      unfold buf. by rewrite Hlo0.
    - apply buf_bound. lia. }
  destruct (body_short_out x_len x x_inds y_len y y_inds L out out_inds
              i j m L (cur x_len x y_len y i j m (Z.to_nat L)).1
              (cur x_len x y_len y i j m (Z.to_nat L)).2
              (buf mL out) mL)
    as (m' & Hbody & Hmem);
    [done | by destruct Hr | lia | lia | lia | done | lia |].
  rewrite <- surjective_pairing in Hbody.
  exists mL, m'. split; [unfold merge, bind; by rewrite Hloop|].
  split; [|done].
  unfold merge. unfold bind at 1.
  rewrite (merge_loop_split _ _ _ _ _ _ L) by lia.
  unfold bind at 1. rewrite Hloop. unfold bind at 1. by rewrite Hbody.
Qed.

(** An iteration at an output position that [out] has and [out_inds] does
    not: the value is stored, the store of its index raises. *)
Lemma body_short_out_inds (x_len : Z) (x x_inds : positive) (y_len : Z)
    (y y_inds : positive) (n : Z) (out out_inds : positive)
    (i j : Z) (m : machine) (k i' j' : Z) (lo loi : list Z)
    (m' : machine) :
  contract x_len x x_inds y_len y y_inds n out out_inds i j m →
  framed out out_inds m m' →
  0 ≤ i' ≤ x_len → 0 ≤ j' ≤ y_len → i' < x_len ∨ j' < y_len →
  mem m' !! out = Some lo → 0 ≤ k < Z.of_nat (length lo) →
  mem m' !! out_inds = Some loi → Z.of_nat (length loi) ≤ k →
  ∃ v m'',
    body x_len x x_inds y_len y y_inds out out_inds k (i', j') m' =
      (Raise IndexError, m'') ∧
    mem m'' = <[out := <[Z.to_nat k := v]> lo]> (mem m') ∧
    ((j' < y_len ∧ item (buf m y) j' = Some v) ∨
     (i' < x_len ∧ item (buf m x) i' = Some v)).
Proof.
  intros pre Hf Hi Hj Hrem Hout Hk Houti Hki.
  destruct (sep_inputs _ _ _ _ _ _ _ _ _ _ _ _ pre)
    as ([? ?] & [? ?] & [? ?] & [? ?]).
  assert (out ≠ out_inds) by (by destruct pre).
  unfold body, bind at 1.
  rewrite (guard_spec _ _ _ _ _ _ _ _ _ _ _ _ pre i' j' m' Hf Hi Hj).
  set (mg := {| mem := mem m'; log := _ |}).
  assert (Hfg : framed out out_inds m mg) by (intros b ? ?; by apply Hf).
  assert (Hbr : ∀ (b b_inds : positive) (p : Z) (c : Z * Z),
    b ≠ out → b ≠ out_inds → b_inds ≠ out → b_inds ≠ out_inds →
    0 ≤ p < Z.of_nat (length (buf m b)) →
    0 ≤ p < Z.of_nat (length (buf m b_inds)) →
    ∃ v m'', item (buf m b) p = Some v ∧
      (let* v := getitem b p in
       let* _ := setitem out k v in
       let* w := getitem b_inds p in
       let* _ := setitem out_inds k w in
       ret c) mg = (Raise IndexError, m'') ∧
      mem m'' = <[out := <[Z.to_nat k := v]> lo]> (mem m')).
  { intros b b_inds p c ? ? ? ? Hp Hpi.
    destruct (load_input out out_inds m b p mg) as (v & Hv & Hg); [done..|].
    set (m2 := {| mem := <[out := <[Z.to_nat k := v]> lo]> (mem mg);
                  log := (log mg ++ [Load b p]) ++ [Store out k] |}).
    assert (Hf2 : framed out out_inds m m2).
    { intros b' ? ?. cbn. rewrite lookup_insert_ne by done. by apply Hf. }
    destruct (load_input out out_inds m b_inds p m2) as (w & _ & Hgw);
      [done..|].
    exists v. eexists. split; [done|].
    unfold bind at 1. rewrite Hg. unfold bind at 1.
    rewrite (setitem_ok out k v lo) by done.
    cbn [record mem log]. fold m2.
    unfold bind at 1. rewrite Hgw. unfold bind at 1.
    rewrite (setitem_out_of_range out_inds k w loi);
      [split; [reflexivity|done] | | done].
    cbn. by rewrite lookup_insert_ne. }
  destruct (takes_y x_len x y_len y m i' j') eqn:Ht.
  - apply takes_y_true in Ht.
    destruct (Hbr y y_inds j' (i', j' + 1)) as (v & m'' & Hv & Hrun & Hmem);
      [done.. | destruct pre; lia | destruct pre; lia |].
    exists v, m''. split; [done|]. split; [done|]. by left.
  - apply takes_y_false in Ht; [|lia|done].
    destruct (Hbr x x_inds i' (i' + 1, j')) as (v & m'' & Hv & Hrun & Hmem);
      [done.. | destruct pre; lia | destruct pre; lia |].
    exists v, m''. split; [done|]. split; [done|]. by right.
Qed.

(** X9 (index buffer too short): let [out_inds] hold exactly [L] cells,
    [out] more than [L], with more than [L] elements asked for and
    remaining, and the call for [L] elements within the contract.  The
    routine then does what the call for [L] elements does, stores one more
    merged value in [out[L]] (the element at the X or the Y cursor reached)
    and raises [IndexError] at the store [out_inds[L] = ...]: after the
    exception [out] holds one element more than [out_inds]. *)
Theorem merge_short_out_inds_raises (x_len : Z) (x x_inds : positive)
    (y_len : Z) (y y_inds : positive) (L out_len : Z)
    (out out_inds : positive) (i j : Z) (m : machine) :
  contract x_len x x_inds y_len y y_inds L out out_inds i j m →
  is_Some (mem m !! out_inds) → Z.of_nat (length (buf m out_inds)) = L →
  L < Z.of_nat (length (buf m out)) →
  L < out_len → out_len ≤ (x_len - i) + (y_len - j) →
  ∃ mL m' iL jL v,
    merge x_len x x_inds y_len y y_inds L out out_inds i j m = (Ok (), mL) ∧
    cursors_after x_len x x_inds y_len y y_inds out out_inds i j m L =
      Some (iL, jL) ∧
    merge x_len x x_inds y_len y y_inds out_len out out_inds i j m =
      (Raise IndexError, m') ∧
    buf m' out = <[Z.to_nat L := v]> (buf mL out) ∧
    buf m' out_inds = buf mL out_inds ∧
    ((jL < y_len ∧ item (buf m y) jL = Some v) ∨
     (iL < x_len ∧ item (buf m x) iL = Some v)).
Proof.
  intros pre [loi0 Hloi0] Hfit Hroom Hless Hrem.
  assert (0 ≤ L) as HL by (destruct pre; lia).
  assert (Hne : out ≠ out_inds) by (by destruct pre).
  destruct (loop_sim _ _ _ _ _ _ _ _ _ _ _ _ pre (Z.to_nat L))
    as (mL & Hloop & Hr); [lia|].
  rewrite Z2Nat.id in Hloop by done.
  destruct (cur_range _ _ _ _ _ _ _ _ _ _ _ _ pre (Z.to_nat L))
    as (Hi & Hj & Hsum); [lia|].
  assert (0 ≤ i ∧ 0 ≤ j) as [? ?] by (destruct pre; lia).
  assert (Hlen : length (buf mL out) = length (buf m out)).
  { rewrite (r_out _ _ _ _ _ _ _ _ _ _ _ _ _ Hr).
    rewrite length_app, length_fmap, length_emitted, length_drop. lia. }
  assert (Hleni : length (buf mL out_inds) = length (buf m out_inds)).
  { rewrite (r_out_inds _ _ _ _ _ _ _ _ _ _ _ _ _ Hr).
    rewrite length_app, length_fmap, length_emitted, length_drop. lia. }
  assert (Hbound : mem mL !! out = Some (buf mL out))
    by (apply buf_bound; lia).
  assert (Hboundi : mem mL !! out_inds = Some (buf mL out_inds)).
  { destruct (decide (L = 0)) as [->|].
    - assert (mL = m) as ->.
      { unfold merge_loop in Hloop.
        change (seqZ 0 0) with (@nil Z) in Hloop. cbn in Hloop.
        by injection Hloop. }
      unfold buf. by rewrite Hloi0.
    - apply buf_bound. lia. }
  destruct (body_short_out_inds x_len x x_inds y_len y y_inds L
              out out_inds i j m L
              (cur x_len x y_len y i j m (Z.to_nat L)).1
              (cur x_len x y_len y i j m (Z.to_nat L)).2
              (buf mL out) (buf mL out_inds) mL)
    as (v & m' & Hbody & Hmem & Hv);
    [done | by destruct Hr | lia | lia | lia | done | lia | done | lia |].
  rewrite <- surjective_pairing in Hbody.
  exists mL, m', (cur x_len x y_len y i j m (Z.to_nat L)).1,
    (cur x_len x y_len y i j m (Z.to_nat L)).2, v.
  rewrite <- surjective_pairing.
  split; [unfold merge, bind; by rewrite Hloop|].
  split; [unfold cursors_after; by rewrite Hloop|].
  split.
  { unfold merge. unfold bind at 1.
    rewrite (merge_loop_split _ _ _ _ _ _ L) by lia.
    unfold bind at 1. rewrite Hloop. unfold bind at 1. by rewrite Hbody. }
  split; [unfold buf at 1; by rewrite Hmem, lookup_insert_eq|].
  split; [unfold buf at 1 2; by rewrite Hmem, lookup_insert_ne|].
  done.
Qed.

(** X7 (the output depends on the runs only): two calls within the
    contract with the same lengths and cursors, on heaps whose four input
    buffers have the same contents, leave the same [out[0:out_len]] and
    [out_inds[0:out_len]], whatever the output buffers (possibly other
    objects) held before: the routine never needs them initialised. *)
Theorem merge_output_from_runs (x_len : Z) (x x_inds : positive)
    (y_len : Z) (y y_inds : positive) (out_len : Z)
    (out out_inds out2 out_inds2 : positive) (i j : Z) (m m2 : machine) :
  contract x_len x x_inds y_len y y_inds out_len out out_inds i j m →
  contract x_len x x_inds y_len y y_inds out_len out2 out_inds2 i j m2 →
  buf m2 x = buf m x → buf m2 x_inds = buf m x_inds →
  buf m2 y = buf m y → buf m2 y_inds = buf m y_inds →
  ∃ m' m2',
    merge x_len x x_inds y_len y y_inds out_len out out_inds i j m =
      (Ok (), m') ∧
    merge x_len x x_inds y_len y y_inds out_len out2 out_inds2 i j m2 =
      (Ok (), m2') ∧
    slice (buf m2' out2) 0 out_len = slice (buf m' out) 0 out_len ∧
    slice (buf m2' out_inds2) 0 out_len = slice (buf m' out_inds) 0 out_len.
Proof.
  intros pre pre2 Hx Hxi Hy Hyi.
  assert (0 ≤ out_len) as Hn by (destruct pre; lia).
  destruct (merge_run _ _ _ _ _ _ _ _ _ _ _ _ pre) as (m' & Hrun & Hr).
  destruct (merge_run _ _ _ _ _ _ _ _ _ _ _ _ pre2) as (m2' & Hrun2 & Hr2).
  exists m', m2'. split; [done|]. split; [done|].
  destruct (reached_prefix _ _ _ _ _ _ _ _ _ _ _ _ _ Hr) as [A B].
  destruct (reached_prefix _ _ _ _ _ _ _ _ _ _ _ _ _ Hr2) as [A2 B2].
  rewrite Z2Nat.id in A, B, A2, B2 by done. rewrite A, B, A2, B2.
  pose proof (emitted_resume x_len x x_inds y_len y y_inds i j m m2 0
                Hx Hxi Hy Hyi (Z.to_nat out_len)) as He.
  cbn [cur fst snd Nat.add] in He. rewrite He. done.
Qed.

(** ** The buffers the routine touches *)

Section roles.
Variables (x_len : Z) (x x_inds : positive) (y_len : Z)
          (y y_inds : positive) (out_len : Z) (out out_inds : positive).

Local Abbreviation in_role := (keeps_roles x x_inds y y_inds out out_inds).

Lemma body_roles (k : Z) (c : Z * Z) :
  respects (log_grows in_role)
    (body x_len x x_inds y_len y y_inds out out_inds k c) (λ _, True).
Proof.
  destruct c as [i j]. unfold body.
  assert (Hin : ∀ b : positive,
            b = x ∨ b = x_inds ∨ b = y ∨ b = y_inds →
            b ∈ [x; x_inds; y; y_inds]).
  { intros b. rewrite !elem_of_cons. tauto. }
  assert (Hout : ∀ b : positive, b = out ∨ b = out_inds →
                                 b ∈ [out; out_inds]).
  { intros b. rewrite !elem_of_cons. tauto. }
  assert (Hbr : ∀ (b b_inds : positive) (p : Z) (c : Z * Z),
            b ∈ [x; x_inds; y; y_inds] → b_inds ∈ [x; x_inds; y; y_inds] →
            respects (log_grows in_role)
              (let* v := getitem b p in
               let* _ := setitem out k v in
               let* w := getitem b_inds p in
               let* _ := setitem out_inds k w in
               ret c) (λ _, True)).
  { intros b b_inds p c Hb Hbi.
    eapply respects_bind; [apply _ | by apply getitem_log |]. intros v _.
    eapply respects_bind;
      [apply _ | apply setitem_log; apply Hout; tauto |]. intros _ _.
    eapply respects_bind; [apply _ | by apply getitem_log |]. intros w _.
    eapply respects_bind;
      [apply _ | apply setitem_log; apply Hout; tauto |]. intros _ _.
    apply respects_ret; [apply _ | done]. }
  eapply respects_bind with (Q1 := λ _, True); [apply _ | |].
  - unfold guard. repeat case_bool_decide;
      try (apply respects_ret; [apply _ | done]).
    eapply respects_bind;
      [apply _ | apply getitem_log; apply Hin; tauto |]. intros vy _.
    eapply respects_bind;
      [apply _ | apply getitem_log; apply Hin; tauto |]. intros vx _.
    apply respects_ret; [apply _ | done].
  - intros [|] _; apply Hbr; apply Hin; tauto.
Qed.
End roles.

(** X8 (which buffers are touched): for every call, on every heap, within
    the contract or not, every load the routine performs is from one of
    [x], [x_inds], [y], [y_inds] and every store is into [out] or
    [out_inds]: it never reads an output buffer and never writes an input
    buffer, as long as they are different objects. *)
Theorem merge_keeps_roles (x_len : Z) (x x_inds : positive) (y_len : Z)
    (y y_inds : positive) (out_len : Z) (out out_inds : positive)
    (i j : Z) (m : machine) :
  ∃ evs,
    log (merge x_len x x_inds y_len y y_inds out_len out out_inds i j m).2 =
      log m ++ evs ∧
    Forall (keeps_roles x x_inds y y_inds out out_inds) evs ∧
    (∀ b p, b ∉ [x; x_inds; y; y_inds] → Load b p ∉ evs) ∧
    (∀ b p, b ∉ [out; out_inds] → Store b p ∉ evs).
Proof.
  assert (Hr : respects
            (log_grows (keeps_roles x x_inds y y_inds out out_inds))
            (merge x_len x x_inds y_len y y_inds out_len out out_inds i j)
            (λ _, True)).
  { unfold merge, merge_loop. rewrite seqZ_to_nat.
    eapply respects_bind;
      [apply _ | | intros; apply respects_ret; [apply _ | done]].
    apply respects_for_each with (I := λ _ _, True); [apply _ | | done].
    intros k c _ _. apply body_roles. }
  destruct (Hr m) as [(evs & Hlog & Hall) _].
  exists evs. split; [done|]. split; [done|].
  rewrite Forall_forall in Hall.
  split; intros b p Hb Hin; apply Hb; exact (Hall _ Hin).
Qed.

(** ** These statements at work *)

Ltac concrete_contract :=
  split;
  first [ lia | discriminate | by vm_compute
        | rewrite !not_elem_of_cons; repeat split;
          first [discriminate | apply not_elem_of_nil] ].

Lemma merge_interleaves_witness :
  contract 3 1 2 3 3 4 6 5 6 0 0 scenario ∧
  ∃ iF jF m',
    merge_loop 3 1 2 3 3 4 6 5 6 0 0 scenario = (Ok (iF, jF), m') ∧
    merge 3 1 2 3 3 4 6 5 6 0 0 scenario = (Ok (), m') ∧
    interleaved
      (zip (slice (buf scenario 1) 0 iF) (slice (buf scenario 2) 0 iF))
      (zip (slice (buf scenario 3) 0 jF) (slice (buf scenario 4) 0 jF))
      (zip (slice (buf m' 5) 0 6) (slice (buf m' 6) 0 6)).
Proof.
  assert (Hc : contract 3 1 2 3 3 4 6 5 6 0 0 scenario)
    by (apply scenario_contract; lia).
  split; [exact Hc|].
  exact (merge_interleaves 3 1 2 3 3 4 6 5 6 0 0 scenario Hc).
Defined.

Lemma merge_cursor_bounds_witness :
  contract 3 1 2 3 3 4 4 5 6 0 0 scenario ∧
  (∃ ik jk,
     cursors_after 3 1 2 3 3 4 5 6 0 0 scenario 4 = Some (ik, jk) ∧
     0 ≤ ik ≤ 3 ∧ 0 ≤ jk ≤ 3 ∧ (ik - 0) + (jk - 0) = 4) ∧
  (1 ≤ 2 ∧ 1 ≤ 2).
Proof.
  assert (Hc : contract 3 1 2 3 3 4 4 5 6 0 0 scenario)
    by (apply scenario_contract; lia).
  split; [exact Hc|].
  destruct (merge_cursor_bounds 3 1 2 3 3 4 4 5 6 0 0 scenario Hc)
    as [Hrange Hmono].
  split; [apply Hrange; lia|].
  apply (Hmono 2 4 1 1 2 2); [lia | lia | by vm_compute | by vm_compute].
Defined.

Lemma merge_chunks_compose_witness :
  contract 3 1 2 3 3 4 (2 + 4) 5 6 0 0 scenario ∧
  cursors_after 3 1 2 3 3 4 5 6 0 0 scenario 2 = Some (1, 1) ∧
  ∃ m1 m2 mW,
    merge 3 1 2 3 3 4 2 5 6 0 0 scenario = (Ok (), m1) ∧
    merge 3 1 2 3 3 4 4 5 6 1 1 m1 = (Ok (), m2) ∧
    merge 3 1 2 3 3 4 (2 + 4) 5 6 0 0 scenario = (Ok (), mW) ∧
    slice (buf mW 5) 0 (2 + 4) =
      slice (buf m1 5) 0 2 ++ slice (buf m2 5) 0 4 ∧
    slice (buf mW 6) 0 (2 + 4) =
      slice (buf m1 6) 0 2 ++ slice (buf m2 6) 0 4.
Proof.
  assert (Hc : contract 3 1 2 3 3 4 (2 + 4) 5 6 0 0 scenario)
    by (apply scenario_contract; lia).
  assert (Hcur : cursors_after 3 1 2 3 3 4 5 6 0 0 scenario 2 = Some (1, 1))
    by (by vm_compute).
  split; [exact Hc|]. split; [exact Hcur|].
  apply (merge_chunks_compose 3 1 2 3 3 4 2 4 5 6 0 0 1 1 scenario Hc);
    [lia | lia | exact Hcur].
Defined.

Lemma merge_overrun_raises_witness :
  contract 3 1 2 3 3 4 ((3 - 0) + (3 - 0)) 5 6 0 0 scenario ∧
  Z.of_nat (length (buf scenario 1)) = 3 ∧
  ∃ mR,
    merge 3 1 2 3 3 4 ((3 - 0) + (3 - 0)) 5 6 0 0 scenario = (Ok (), mR) ∧
    merge 3 1 2 3 3 4 7 5 6 0 0 scenario =
      (Raise IndexError, record (Load 1 3) mR).
Proof.
  assert (Hc : contract 3 1 2 3 3 4 ((3 - 0) + (3 - 0)) 5 6 0 0 scenario)
    by (apply scenario_contract; lia).
  split; [exact Hc|]. split; [by vm_compute|].
  apply (merge_overrun_raises 3 1 2 3 3 4 7 5 6 0 0 scenario Hc);
    [by eexists | by vm_compute | lia].
Defined.

Lemma merge_ignores_x_len_witness :
  3 ≤ 3 ∧
  merge 1 1 2 3 3 4 3 5 6 0 3 scenario =
    merge 3 1 2 3 3 4 3 5 6 0 3 scenario ∧
  (* with [x_len = 1] declared, three elements of [x] are copied *)
  slice (buf (merge 1 1 2 3 3 4 3 5 6 0 3 scenario).2 5) 0 3 = [1; 3; 5].
Proof.
  split; [lia|].
  split; [apply (merge_ignores_x_len 1 3 1 2 3 3 4 3 5 6 0 3 scenario); lia|].
  by vm_compute.
Defined.

Lemma merge_short_out_raises_witness :
  contract 3 1 2 3 3 4 2 5 6 0 0 short_out ∧
  Z.of_nat (length (buf short_out 5)) = 2 ∧
  ∃ mL m',
    merge 3 1 2 3 3 4 2 5 6 0 0 short_out = (Ok (), mL) ∧
    merge 3 1 2 3 3 4 6 5 6 0 0 short_out = (Raise IndexError, m') ∧
    mem m' = mem mL.
Proof.
  assert (Hc : contract 3 1 2 3 3 4 2 5 6 0 0 short_out)
    by concrete_contract.
  split; [exact Hc|]. split; [by vm_compute|].
  apply (merge_short_out_raises 3 1 2 3 3 4 2 6 5 6 0 0 short_out Hc);
    [by eexists | by vm_compute | lia | lia].
Defined.

Lemma merge_short_out_inds_raises_witness :
  contract 3 1 2 3 3 4 2 5 6 0 0 short_out_inds ∧
  Z.of_nat (length (buf short_out_inds 6)) = 2 ∧
  ∃ mL m' iL jL v,
    merge 3 1 2 3 3 4 2 5 6 0 0 short_out_inds = (Ok (), mL) ∧
    cursors_after 3 1 2 3 3 4 5 6 0 0 short_out_inds 2 = Some (iL, jL) ∧
    merge 3 1 2 3 3 4 6 5 6 0 0 short_out_inds = (Raise IndexError, m') ∧
    buf m' 5 = <[Z.to_nat 2 := v]> (buf mL 5) ∧
    buf m' 6 = buf mL 6 ∧
    ((jL < 3 ∧ item (buf short_out_inds 3) jL = Some v) ∨
     (iL < 3 ∧ item (buf short_out_inds 1) iL = Some v)).
Proof.
  assert (Hc : contract 3 1 2 3 3 4 2 5 6 0 0 short_out_inds)
    by concrete_contract.
  split; [exact Hc|]. split; [by vm_compute|].
  apply (merge_short_out_inds_raises 3 1 2 3 3 4 2 6 5 6 0 0
           short_out_inds Hc);
    [by eexists | by vm_compute | by vm_compute | lia | lia].
Defined.

Lemma merge_output_from_runs_witness :
  contract 3 1 2 3 3 4 6 5 6 0 0 scenario ∧
  contract 3 1 2 3 3 4 6 7 8 0 0 second_outputs ∧
  ∃ m' m2',
    merge 3 1 2 3 3 4 6 5 6 0 0 scenario = (Ok (), m') ∧
    merge 3 1 2 3 3 4 6 7 8 0 0 second_outputs = (Ok (), m2') ∧
    slice (buf m2' 7) 0 6 = slice (buf m' 5) 0 6 ∧
    slice (buf m2' 8) 0 6 = slice (buf m' 6) 0 6.
Proof.
  assert (Hc : contract 3 1 2 3 3 4 6 5 6 0 0 scenario)
    by (apply scenario_contract; lia).
  assert (Hc2 : contract 3 1 2 3 3 4 6 7 8 0 0 second_outputs)
    by concrete_contract.
  split; [exact Hc|]. split; [exact Hc2|].
  apply (merge_output_from_runs 3 1 2 3 3 4 6 5 6 7 8 0 0
           scenario second_outputs Hc Hc2); by vm_compute.
Defined.

Lemma merge_keeps_roles_witness :
  ∃ evs,
    log (merge 3 1 2 3 3 4 6 5 6 0 0 scenario).2 = log scenario ++ evs ∧
    (Load 5 0 ∉ evs) ∧ (Load 6 0 ∉ evs) ∧ (Store 1 0 ∉ evs).
Proof.
  destruct (merge_keeps_roles 3 1 2 3 3 4 6 5 6 0 0 scenario)
    as (evs & Hlog & _ & Hloads & Hstores).
  exists evs. split; [exact Hlog|].
  assert (H5 : (5 : positive) ∉ [1; 2; 3; 4]%positive)
    by (rewrite !not_elem_of_cons; repeat split;
        first [discriminate | apply not_elem_of_nil]).
  assert (H6 : (6 : positive) ∉ [1; 2; 3; 4]%positive)
    by (rewrite !not_elem_of_cons; repeat split;
        first [discriminate | apply not_elem_of_nil]).
  assert (H1 : (1 : positive) ∉ [5; 6]%positive)
    by (rewrite !not_elem_of_cons; repeat split;
        first [discriminate | apply not_elem_of_nil]).
  split; [by apply Hloads|]. split; [by apply Hloads | by apply Hstores].
Defined.

End stream_ext.
